(** * The box game of asaphus_coding_challenge.cpp

    A shallow embedding of the scoring boxes, the box selector, the players
    and the game loop, followed by the properties of the specification.

    Number model.  [uint32_t], [uint16_t] and [size_t] values are integers
    of [Z] with the wrap-around of each conversion written out.  [double] is
    the binary64 format: the primitive [float] of Rocq, whose operations are
    the IEEE 754 ones (round to nearest, ties to even) and are specified by
    [SpecFloat] through the [Prim2SF] equations of the library.  Every
    [double] expression of the program is taken to be evaluated in binary64,
    operation by operation.

    Failure model.  What the language leaves undefined or makes throw (an
    index out of range, the dereference of an end iterator) is the result
    [None].  A division of [double] by zero is an operation of binary64
    like any other: it yields an infinity or a NaN.

    Layout.  The program comes first, then the notions that the properties
    are stated with, then the properties: the selector, the turns and the
    game loop, the turn counter, the two scoring rules, and the facts of
    binary64 rounding that the monotonicity of the scores and the exactness
    of integer sums rest on.  The last part, further properties of the
    code, covers the order of the boxes, the selector on every vector, what
    a turn changes and keeps, and the exact values of the scores. *)

From Stdlib Require Import ZArith List Lia Bool Floats Permutation.
From Stdlib Require Uint63.
Import ListNotations.

Local Open Scope Z_scope.

(** ** Machine integers *)

Definition UINT32_MODULUS : Z := 4294967296.
Definition UINT16_MODULUS : Z := 65536.

(** Value of an unsigned 32-bit expression. *)
Definition wrap32 (z : Z) : Z := z mod UINT32_MODULUS.

(** [static_cast<uint16_t>] of an unsigned value. *)
Definition wrap16 (z : Z) : Z := z mod UINT16_MODULUS.

Definition is_uint32 (z : Z) : Prop := 0 <= z < UINT32_MODULUS.

(** [static_cast<double>] of an unsigned integer below 2^63 (every
    [uint32_t], and every [size_t] that is the size of a vector here). *)
Definition to_double (z : Z) : float := PrimFloat.of_uint63 (Uint63.of_Z z).

(** ** Undefined behaviour as [None] *)

Definition bind {A B : Type} (m : option A) (k : A -> option B) : option B :=
  match m with
  | Some a => k a
  | None => None
  end.

Notation "x <- m ;; k" := (bind m (fun x => k))
  (at level 61, m at next level, right associativity).

(** ** Boxes *)

(** The dynamic type of a box: the base class is concrete, and the two
    derived classes override [calcScore]. *)
Inductive BoxKind : Type :=
  | PlainBox
  | GreenBox
  | BlueBox.

Record Box : Type := mkBox {
  kind : BoxKind;
  weight_ : float;
  absorbed_weights : list Z
}.

Definition makeGreenBox (initial_weight : float) : Box :=
  mkBox GreenBox initial_weight [].

Definition makeBlueBox (initial_weight : float) : Box :=
  mkBox BlueBox initial_weight [].

(** [Box::operator<]. *)
Definition Box_lt (lhs rhs : Box) : bool :=
  (weight_ lhs <? weight_ rhs)%float.

(** [Box::boxAbsorb]: [push_back] on the history, then the weight. *)
Definition boxAbsorb (weight : Z) (b : Box) : Box :=
  mkBox (kind b)
        (weight_ b + to_double weight)%float
        (absorbed_weights b ++ [weight]).

(** [std::vector::at]: out of range is an exception, here [None]. *)
Definition at_ (v : list Z) (i : Z) : option Z :=
  if (0 <=? i) && (i <? Z.of_nat (length v))
  then nth_error v (Z.to_nat i)
  else None.

(** The three branches that fill [recent_weights] in [GreenBox::calcScore]. *)
Definition recent_weights_of (absorbed : list Z) : option (list Z) :=
  let abs_size := Z.of_nat (length absorbed) in
  if abs_size <? 3 then Some absorbed
  else
    a <- at_ absorbed (abs_size - 3) ;;
    b <- at_ absorbed (abs_size - 2) ;;
    c <- at_ absorbed (abs_size - 1) ;;
    Some [a; b; c].

(** Weights promoted to [double] and added one by one to an accumulator:
    the loop over [recent_weights] in [GreenBox::calcScore], and what
    repeated [boxAbsorb] does to [weight_]. *)
Definition accumulate (recent_weights : list Z) (mean_weight : float) : float :=
  fold_left (fun acc weight => (acc + to_double weight)%float)
            recent_weights mean_weight.

(** [GreenBox::calcScore].  The division is by [recent_weights.size()]
    promoted to [double]; on an empty history it is 0.0 / 0.0, a NaN, and
    the function returns the NaN. *)
Definition GreenBox_calcScore (absorbed : list Z) : option float :=
  recent_weights <- recent_weights_of absorbed ;;
  let mean_weight := accumulate recent_weights 0%float in
  let mean_weight :=
    (mean_weight / to_double (Z.of_nat (length recent_weights)))%float in
  Some (mean_weight * mean_weight)%float.

(** [std::min_element]: the first smallest element; on an empty range the
    end iterator, whose dereference is undefined. *)
Definition min_element (v : list Z) : option Z :=
  match v with
  | [] => None
  | first :: rest =>
      Some (fold_left (fun smallest x => if x <? smallest then x else smallest)
                      rest first)
  end.

(** [std::max_element]: the first largest element. *)
Definition max_element (v : list Z) : option Z :=
  match v with
  | [] => None
  | first :: rest =>
      Some (fold_left (fun largest x => if largest <? x then x else largest)
                      rest first)
  end.

(** [BlueBox::pairing]: the sum [min + max] is an unsigned 32-bit sum, and
    only its value is converted to [double]. *)
Definition pairing (min max : Z) : float :=
  let sum := to_double (wrap32 (min + max)) in
  (((sum * (sum + 1)) / 2) + to_double max)%float.

(** [BlueBox::calcScore]. *)
Definition BlueBox_calcScore (absorbed : list Z) : option float :=
  min_Element <- min_element absorbed ;;
  max_Element <- max_element absorbed ;;
  Some (pairing min_Element max_Element).

(** Virtual dispatch of [calcScore]. *)
Definition calcScore (b : Box) : option float :=
  match kind b with
  | PlainBox => Some 0%float
  | GreenBox => GreenBox_calcScore (absorbed_weights b)
  | BlueBox => BlueBox_calcScore (absorbed_weights b)
  end.

(** ** The selector *)

(** The loop of [findSmallestBox]: [rest] is [boxes[idx..]], so its head is
    [*boxes[idx]]; [boxes[small_idx]] is looked up in the whole vector.
    [idx] is a [size_t], which no vector is long enough to overflow;
    [small_idx] is a [uint16_t], and the cast cuts [idx] to 16 bits. *)
Fixpoint findSmallestBox_loop (boxes rest : list Box) (idx small_idx : Z)
  : option Z :=
  match rest with
  | [] => Some small_idx
  | box_idx :: rest' =>
      box_small <- nth_error boxes (Z.to_nat small_idx) ;;
      findSmallestBox_loop boxes rest' (idx + 1)
        (if Box_lt box_idx box_small then wrap16 idx else small_idx)
  end.

Definition findSmallestBox (boxes : list Box) : option Z :=
  findSmallestBox_loop boxes (tl boxes) 1 0.

(** ** Players *)

Record Player : Type := mkPlayer { score_ : float }.

Definition getScore (p : Player) : float := score_ p.

Definition new_Player : Player := mkPlayer 0%float.

(** Assignment through [boxes[i]]: the pointed-to box is replaced. *)
Fixpoint store_box (boxes : list Box) (i : nat) (b : Box) : list Box :=
  match boxes, i with
  | [], _ => []
  | _ :: tl, O => b :: tl
  | hd :: tl, S i' => hd :: store_box tl i' b
  end.

(** [Player::takeTurn]: the player and the shared boxes after the turn. *)
Definition takeTurn (input_weight : Z) (boxes : list Box) (p : Player)
  : option (Player * list Box) :=
  small_idx <- findSmallestBox boxes ;;
  box <- nth_error boxes (Z.to_nat small_idx) ;;
  let box := boxAbsorb input_weight box in
  score <- calcScore box ;;
  Some (mkPlayer (score_ p + score)%float,
        store_box boxes (Z.to_nat small_idx) box).

(** ** The game loop *)

Inductive PlayerId : Type := PlayerA | PlayerB.

Record Game : Type := mkGame {
  boxes : list Box;
  player_A : Player;
  player_B : Player;
  count : Z
}.

#[local] Set Warnings "-inexact-float".

Definition initial_boxes : list Box :=
  [ makeGreenBox 0.0%float; makeGreenBox 0.1%float;
    makeBlueBox 0.2%float; makeBlueBox 0.3%float ].

#[local] Set Warnings "inexact-float".

Definition new_Game : Game := mkGame initial_boxes new_Player new_Player 0.

(** The test [(count % 2u) == 0u] that picks the player of a turn. *)
Definition player_of_count (count : Z) : PlayerId :=
  if count mod 2 =? 0 then PlayerA else PlayerB.

(** The guarded increment of the 16-bit counter. *)
Definition next_count (count : Z) : Z :=
  if count <? 65535 then wrap16 (count + 1) else count.

(** One iteration of the loop of [play]. *)
Definition play_iter (g : Game) (weight : Z) : option Game :=
  match player_of_count (count g) with
  | PlayerA =>
      r <- takeTurn weight (boxes g) (player_A g) ;;
      Some (mkGame (snd r) (fst r) (player_B g) (next_count (count g)))
  | PlayerB =>
      r <- takeTurn weight (boxes g) (player_B g) ;;
      Some (mkGame (snd r) (player_A g) (fst r) (next_count (count g)))
  end.

Fixpoint play_loop (input_weights : list Z) (g : Game) : option Game :=
  match input_weights with
  | [] => Some g
  | weight :: rest =>
      g' <- play_iter g weight ;;
      play_loop rest g'
  end.

(** The line that [play] writes to the standard output. *)
Inductive OutputLine : Type :=
  | Scores (score_A score_B : float).

(** [play]: the only state outside the call is the output stream. *)
Definition play_in (input_weights : list Z) (cout : list OutputLine)
  : option ((float * float) * list OutputLine) :=
  g <- play_loop input_weights new_Game ;;
  let a := getScore (player_A g) in
  let b := getScore (player_B g) in
  Some ((a, b), cout ++ [Scores a b]).

Definition play (input_weights : list Z) : option (float * float) :=
  r <- play_in input_weights [] ;;
  Some (fst r).

(** ** Notions of the specification *)

(** Game states that [play] goes through on inputs of [uint32_t]. *)
Inductive Reachable : Game -> Prop :=
  | Reachable_new : Reachable new_Game
  | Reachable_turn (g g' : Game) (weight : Z) :
      Reachable g -> is_uint32 weight ->
      play_iter g weight = Some g' -> Reachable g'.

(** What the scan establishes of its answer [k] for any weights, a NaN
    included: no box compares below box [k], and no earlier box compares
    at or below it. *)
Definition first_lightest (boxes : list Box) (k : nat) : Prop :=
  exists bk, nth_error boxes k = Some bk /\
    (forall j bj, nth_error boxes j = Some bj -> Box_lt bj bk = false) /\
    (forall j bj, (j < k)%nat -> nth_error boxes j = Some bj ->
                  (weight_ bj <=? weight_ bk)%float = false).

(** What the scan of [findSmallestBox] has established once the boxes
    below [idx] have been compared. *)
Definition candidate (boxes : list Box) (idx k : nat) : Prop :=
  (k < idx)%nat /\
  exists bk, nth_error boxes k = Some bk /\
    (forall j bj, (j < idx)%nat -> nth_error boxes j = Some bj ->
                  Box_lt bj bk = false) /\
    (forall j bj, (j < k)%nat -> nth_error boxes j = Some bj ->
                  (weight_ bj <=? weight_ bk)%float = false).

(** The weight of the box is a number, not a NaN. *)
Definition weight_is_number (b : Box) : Prop :=
  PrimFloat.is_nan (weight_ b) = false.

(** The index [k] achieves the minimum weight and is the first to do so:
    box [k] weighs at most as much as every box, and strictly less than
    every earlier box. *)
Definition first_minimum (boxes : list Box) (k : nat) : Prop :=
  exists bk, nth_error boxes k = Some bk /\
    (forall j bj, nth_error boxes j = Some bj ->
                  (weight_ bk <=? weight_ bj)%float = true) /\
    (forall j bj, (j < k)%nat -> nth_error boxes j = Some bj ->
                  (weight_ bk <? weight_ bj)%float = true).

(** Two boxes, the first with a NaN for its weight. *)
Definition boxes_NaN : list Box :=
  [makeGreenBox PrimFloat.nan; makeGreenBox 0].

(** The second box of a game, whose initial weight 0.1 is no integer. *)
Definition second_box : Box := nth 1 initial_boxes (makeGreenBox 0).

(** A vector of 65537 boxes whose last box is the only lightest one. *)
Definition boxes_65537 : list Box :=
  repeat (makeGreenBox 1) (Z.to_nat 65536) ++ [makeGreenBox 0].

(** The last [n] elements of a history. *)
Definition last_weights (n : nat) (history : list Z) : list Z :=
  skipn (length history - n) history.

(** The windowed-mean score in the words of the specification: the square
    of the mean of the last [min 3 (length history)] absorbed weights. *)
Definition windowed_mean_square (history : list Z) : float :=
  let w := last_weights (Nat.min 3 (length history)) history in
  let mean := (accumulate w 0 / to_double (Z.of_nat (length w)))%float in
  (mean * mean)%float.

(** Cantor's pairing function on operands promoted to [double] before
    their sum is formed, as the specification words it. *)
Definition cantor_pairing (m M : Z) : float :=
  let sum := (to_double m + to_double M)%float in
  (sum * (sum + 1) / 2 + to_double M)%float.

(** A sequence of absorptions into one box. *)
Definition absorb_all (weights : list Z) (b : Box) : Box :=
  fold_left (fun box weight => boxAbsorb weight box) weights b.

(** The counter of [play] at the start of turn [i], and the player that
    the loop gives turn [i] to. *)
Definition count_at (i : nat) : Z := Nat.iter i next_count 0.

Definition player_of_turn (i : nat) : PlayerId := player_of_count (count_at i).

(** The player of turn [i] in the specification. *)
Definition alternating_player (i : nat) : PlayerId :=
  if Nat.even i then PlayerA else PlayerB.

(** The invariant of a box created with [initial_weight]: its weight is
    the initial weight plus the absorbed weights, each promoted to [double]
    and added in absorption order. *)
Definition weight_invariant (initial_weight : float) (b : Box) : Prop :=
  weight_ b = accumulate (absorbed_weights b) initial_weight.

(** A game box and the box it was at the start of the game. *)
Definition box_invariant (b0 b : Box) : Prop :=
  kind b = kind b0 /\ weight_invariant (weight_ b0) b.

(** What every turn of a game keeps: the four boxes with their invariant,
    and a counter within its saturation bound. *)
Definition Game_invariant (g : Game) : Prop :=
  Forall2 box_invariant initial_boxes (boxes g) /\ 0 <= count g <= 65535.

(** The game after [n] turns that all absorbed the weight 0. *)
Definition zeros_Game (n : nat) : Game :=
  mkGame (mkBox GreenBox 0%float (repeat 0 n) :: tl initial_boxes)
         new_Player new_Player (count_at n).

(** Numbers that are not a NaN and not below zero (the sign of a zero
    does not matter). *)
Definition SFnonneg (x : spec_float) : bool :=
  match x with
  | S754_zero _ => true
  | S754_infinity s => negb s
  | S754_nan => false
  | S754_finite s _ _ => negb s
  end.

Definition nonneg (x : float) : bool := SFnonneg (Prim2SF x).

(** The value of a number not below zero, in units of 2^-1074. *)
Definition SFvalue (x : spec_float) : Z :=
  match x with
  | S754_finite false m e => Zpos m * 2 ^ (e + 1074)
  | _ => 0
  end.

(** Finite numbers not below zero. *)
Definition SFfinite_nonneg (x : spec_float) : bool :=
  match x with
  | S754_zero _ => true
  | S754_finite s _ _ => negb s
  | _ => false
  end.

(** The binary64 number that holds a positive integer below 2^53: the
    mantissa is the integer shifted to 53 digits. *)
Definition SFinteger (n : positive) : spec_float :=
  let d := Zpos (digits2_pos n) in
  S754_finite false (Z.to_pos (Zpos n * 2 ^ (53 - d))) (d - 53).

(** Both running scores are numbers that are not below zero. *)
Definition scores_nonneg (g : Game) : Prop :=
  nonneg (score_ (player_A g)) = true /\ nonneg (score_ (player_B g)) = true.

(** The game after the single turn of [play [5]]. *)
Definition game_after_5 : Game :=
  mkGame (boxAbsorb 5 (makeGreenBox 0) :: tl initial_boxes)
         (mkPlayer 25) new_Player 1.

(** All the weights that the boxes of a collection have absorbed. *)
Definition all_absorbed (bs : list Box) : list Z :=
  concat (map absorbed_weights bs).

(** The integer that Cantor's pairing function gives. *)
Definition cantor (a b : Z) : Z := (a + b) * (a + b + 1) / 2 + b.

(** * Properties *)

(** ** The order of binary64 *)

Ltac SFcompare_cases :=
  repeat match goal with
  | s : bool |- _ => destruct s
  end;
  simpl; change (Pos.compare_cont Eq) with Pos.compare;
  repeat match goal with
  | |- context [Z.compare ?a ?b] => destruct (Z.compare_spec a b)
  | |- context [Pos.compare ?a ?b] => destruct (Pos.compare_spec a b)
  end;
  simpl; intros; subst; try reflexivity; try discriminate; try lia.

Lemma SFleb_SFltb_trans (a b c : spec_float) :
  SFleb a b = true -> SFltb b c = true -> SFltb a c = true.
Proof.
  unfold SFleb, SFltb.
  destruct a as [sa|sa| |sa ma ea], b as [sb|sb| |sb mb eb],
           c as [sc|sc| |sc mc ec];
    SFcompare_cases.
Qed.

Lemma SFltb_SFleb (a b : spec_float) :
  SFltb a b = true -> SFleb a b = true.
Proof.
  unfold SFleb, SFltb. destruct (SFcompare a b) as [[ | | ]|]; easy.
Qed.

Lemma SFltb_not_SFleb (a b : spec_float) :
  SFltb a b = true -> SFleb b a = false.
Proof.
  unfold SFleb, SFltb.
  destruct a as [sa|sa| |sa ma ea], b as [sb|sb| |sb mb eb];
    SFcompare_cases.
Qed.

Section DoubleOrder.
Local Open Scope float_scope.

Lemma leb_ltb_trans (a b c : float) :
  (a <=? b) = true -> (b <? c) = true -> (a <? c) = true.
Proof.
  rewrite FloatAxioms.leb_spec, !FloatAxioms.ltb_spec.
  apply SFleb_SFltb_trans.
Qed.

Lemma ltb_leb (a b : float) : (a <? b) = true -> (a <=? b) = true.
Proof.
  rewrite FloatAxioms.leb_spec, FloatAxioms.ltb_spec. apply SFltb_SFleb.
Qed.

Lemma ltb_trans (a b c : float) :
  (a <? b) = true -> (b <? c) = true -> (a <? c) = true.
Proof. intros Hab. apply leb_ltb_trans, ltb_leb, Hab. Qed.

Lemma ltb_not_leb (a b : float) : (a <? b) = true -> (b <=? a) = false.
Proof.
  rewrite FloatAxioms.leb_spec, FloatAxioms.ltb_spec.
  apply SFltb_not_SFleb.
Qed.

Lemma ltb_irrefl (a : float) : (a <? a) = false.
Proof.
  destruct (a <? a) eqn:E; [|reflexivity].
  apply ltb_not_leb in E as E'. apply ltb_leb in E. congruence.
Qed.
End DoubleOrder.

(** ** The selector *)

Lemma wrap16_small z : 0 <= z < 65536 -> wrap16 z = z.
Proof. intros. unfold wrap16, UINT16_MODULUS. apply Z.mod_small. lia. Qed.

(** One comparison of the scan keeps the candidate invariant. *)
Lemma candidate_step boxes idx k bi bk :
  candidate boxes idx k ->
  nth_error boxes idx = Some bi ->
  nth_error boxes k = Some bk ->
  candidate boxes (S idx) (if Box_lt bi bk then idx else k).
Proof.
  intros (Hk & bk' & Hbk & Hno & Hearlier) Hbi Hbk'.
  rewrite Hbk in Hbk'. injection Hbk' as ->.
  destruct (Box_lt bi bk) eqn:Hlt; unfold Box_lt in *.
  - split; [lia|]. exists bi. split; [exact Hbi|]. split.
    + intros j bj Hj Hbj. unfold Box_lt.
      destruct (weight_ bj <? weight_ bi)%float eqn:E; [|reflexivity].
      assert (j = idx \/ j < idx)%nat as [->|Hj'] by lia.
      * rewrite Hbi in Hbj. injection Hbj as ->.
        rewrite ltb_irrefl in E. discriminate.
      * rewrite <- (Hno j bj Hj' Hbj). symmetry. eapply ltb_trans; eassumption.
    + intros j bj Hj Hbj.
      destruct (weight_ bj <=? weight_ bi)%float eqn:E; [|reflexivity].
      pose proof (leb_ltb_trans _ _ _ E Hlt) as Hjk.
      rewrite (Hno j bj Hj Hbj) in Hjk. discriminate.
  - split; [lia|]. exists bk. split; [exact Hbk|]. split.
    + intros j bj Hj Hbj.
      assert (j = idx \/ j < idx)%nat as [->|Hj'] by lia.
      * rewrite Hbi in Hbj. injection Hbj as ->. exact Hlt.
      * eauto.
    + exact Hearlier.
Qed.

Lemma findSmallestBox_loop_spec rest :
  forall boxes pre k,
    boxes = pre ++ rest ->
    Z.of_nat (length boxes) <= 65536 ->
    candidate boxes (length pre) k ->
    exists k',
      findSmallestBox_loop boxes rest (Z.of_nat (length pre)) (Z.of_nat k)
      = Some (Z.of_nat k') /\
      candidate boxes (length boxes) k'.
Proof.
  induction rest as [|bi rest IH]; intros boxes pre k Hsplit Hlen Hc.
  - exists k. split; [reflexivity|].
    subst boxes. rewrite app_nil_r in *. exact Hc.
  - pose proof Hc as (Hk & bk & Hbk & _).
    assert (Hbi : nth_error boxes (length pre) = Some bi).
    { rewrite Hsplit, nth_error_app2, Nat.sub_diag by lia. reflexivity. }
    assert (Hidx : Z.of_nat (length pre) < 65536).
    { rewrite Hsplit, length_app in Hlen. simpl in Hlen. lia. }
    cbn [findSmallestBox_loop]. rewrite Nat2Z.id, Hbk. cbn [bind].
    pose proof (candidate_step _ _ _ _ _ Hc Hbi Hbk) as Hc'.
    rewrite wrap16_small by lia.
    destruct (IH boxes (pre ++ [bi]) (if Box_lt bi bk then length pre else k))
      as (k' & Hrun & Hk').
    + rewrite <- app_assoc. exact Hsplit.
    + exact Hlen.
    + rewrite length_app, Nat.add_comm. exact Hc'.
    + exists k'. split; [|exact Hk'].
      rewrite <- Hrun. rewrite length_app, Nat.add_comm. cbn [length plus].
      replace (Z.of_nat (S (length pre))) with (Z.of_nat (length pre) + 1) by lia.
      destruct (Box_lt bi bk); reflexivity.
Qed.

Lemma findSmallestBox_spec boxes :
  boxes <> [] -> Z.of_nat (length boxes) <= 65536 ->
  exists k, findSmallestBox boxes = Some (Z.of_nat k) /\
            (k < length boxes)%nat /\ first_lightest boxes k.
Proof.
  intros Hne Hlen. destruct boxes as [|b0 rest]; [congruence|].
  destruct (findSmallestBox_loop_spec rest (b0 :: rest) [b0] 0%nat)
    as (k & Hrun & Hk & bk & Hbk & Hno & Hearlier); auto.
  - split; [simpl; lia|]. exists b0. split; [reflexivity|]. split.
    + intros j bj Hj Hbj. destruct j; [|simpl in Hj; lia].
      injection Hbj as <-. apply ltb_irrefl.
    + intros j bj Hj. lia.
  - exists k. split; [exact Hrun|]. split; [exact Hk|].
    exists bk. split; [exact Hbk|]. split; [|exact Hearlier].
    intros j bj Hbj. eapply Hno; [|exact Hbj].
    apply nth_error_Some. congruence.
Qed.

Lemma SFltb_false_SFleb_number (a b : spec_float) :
  a <> S754_nan -> b <> S754_nan ->
  SFltb a b = false -> SFleb b a = true.
Proof.
  intros Ha Hb. unfold SFleb, SFltb.
  destruct a as [sa|sa| |sa ma ea], b as [sb|sb| |sb mb eb];
    try congruence; clear Ha Hb; SFcompare_cases.
Qed.

Lemma SFleb_false_SFltb_number (a b : spec_float) :
  a <> S754_nan -> b <> S754_nan ->
  SFleb a b = false -> SFltb b a = true.
Proof.
  intros Ha Hb. unfold SFleb, SFltb.
  destruct a as [sa|sa| |sa ma ea], b as [sb|sb| |sb mb eb];
    try congruence; clear Ha Hb; SFcompare_cases.
Qed.

Lemma is_nan_false_SF (x : float) :
  PrimFloat.is_nan x = false -> Prim2SF x <> S754_nan.
Proof.
  unfold PrimFloat.is_nan. rewrite FloatAxioms.eqb_spec. intros H E.
  rewrite E in H. discriminate.
Qed.

(** On numbers the order of binary64 is total. *)
Lemma ltb_false_leb_number (a b : float) :
  PrimFloat.is_nan a = false -> PrimFloat.is_nan b = false ->
  (a <? b)%float = false -> (b <=? a)%float = true.
Proof.
  intros Ha%is_nan_false_SF Hb%is_nan_false_SF.
  rewrite FloatAxioms.leb_spec, FloatAxioms.ltb_spec.
  apply SFltb_false_SFleb_number; assumption.
Qed.

Lemma leb_false_ltb_number (a b : float) :
  PrimFloat.is_nan a = false -> PrimFloat.is_nan b = false ->
  (a <=? b)%float = false -> (b <? a)%float = true.
Proof.
  intros Ha%is_nan_false_SF Hb%is_nan_false_SF.
  rewrite FloatAxioms.leb_spec, FloatAxioms.ltb_spec.
  apply SFleb_false_SFltb_number; assumption.
Qed.

Lemma first_lightest_minimum boxes k :
  Forall weight_is_number boxes ->
  first_lightest boxes k -> first_minimum boxes k.
Proof.
  intros Hnum (bk & Hbk & Hno & Hearlier).
  assert (Hat : forall j bj, nth_error boxes j = Some bj -> weight_is_number bj).
  { intros j bj Hbj. rewrite Forall_forall in Hnum.
    apply Hnum. eapply nth_error_In. exact Hbj. }
  exists bk. split; [exact Hbk|]. split.
  - intros j bj Hbj. apply ltb_false_leb_number.
    + exact (Hat j bj Hbj).
    + exact (Hat k bk Hbk).
    + exact (Hno j bj Hbj).
  - intros j bj Hj Hbj. apply leb_false_ltb_number.
    + exact (Hat j bj Hbj).
    + exact (Hat k bk Hbk).
    + exact (Hearlier j bj Hj Hbj).
Qed.

(** C4 (as amended): on a non-empty vector of at most 65536 boxes whose
    weights are numbers, the selector returns the first index that
    achieves the minimum weight: the selected box weighs at most as much
    as every box, and strictly less than every box before it. *)
Theorem findSmallestBox_first_lightest (boxes : list Box) :
  boxes <> [] -> Z.of_nat (length boxes) <= 65536 ->
  Forall weight_is_number boxes ->
  exists k, findSmallestBox boxes = Some (Z.of_nat k) /\ first_minimum boxes k.
Proof.
  intros Hne Hlen Hnum.
  destruct (findSmallestBox_spec boxes Hne Hlen) as (k & Hrun & _ & Hk).
  exists k. split; [exact Hrun|].
  apply first_lightest_minimum; assumption.
Qed.

Lemma findSmallestBox_first_lightest_witness :
  exists k, findSmallestBox initial_boxes = Some (Z.of_nat k) /\
            first_minimum initial_boxes k.
Proof.
  apply (findSmallestBox_first_lightest initial_boxes).
  - discriminate.
  - simpl. lia.
  - repeat constructor.
Defined.

(** C4 (as stated) fails in two ways.  On 65537 boxes the index of the
    last box, 65536, is cut to 16 bits, so the selector answers 0 although
    box 65536 is lighter than box 0.  On two boxes of which the first
    weighs a NaN the selector answers 0, as no weight compares below a NaN,
    although box 0 does not weigh at most as much as box 1. *)
Lemma findSmallestBox_65537_boxes :
  (boxes_65537 <> [] /\
   findSmallestBox boxes_65537 = Some 0 /\
   ~ first_minimum boxes_65537 0) /\
  (boxes_NaN <> [] /\
   findSmallestBox boxes_NaN = Some 0 /\
   ~ first_minimum boxes_NaN 0).
Proof.
  split.
  - split; [discriminate|]. split; [vm_compute; reflexivity|].
    intros (bk & Hbk & Hle & _).
    injection Hbk as <-.
    specialize (Hle (Z.to_nat 65536) (makeGreenBox 0)).
    assert (H : nth_error boxes_65537 (Z.to_nat 65536) = Some (makeGreenBox 0))
      by (vm_compute; reflexivity).
    apply Hle in H. vm_compute in H. discriminate.
  - split; [discriminate|]. split; [vm_compute; reflexivity|].
    intros (bk & Hbk & Hle & _).
    injection Hbk as <-.
    specialize (Hle 1%nat (makeGreenBox 0) eq_refl).
    vm_compute in Hle. discriminate.
Qed.

(** C10: the selector never fails at its interface: on the empty vector it
    answers 0, and on a non-empty vector of at most 65536 boxes its answer
    is an index of the vector. *)
Theorem findSmallestBox_total (boxes : list Box) :
  Z.of_nat (length boxes) <= 65536 ->
  exists idx, findSmallestBox boxes = Some idx /\
              (boxes = [] -> idx = 0) /\
              (boxes <> [] -> 0 <= idx < Z.of_nat (length boxes)).
Proof.
  intros Hlen. destruct boxes as [|b0 rest].
  - exists 0. repeat split; congruence.
  - destruct (findSmallestBox_spec (b0 :: rest)) as (k & Hrun & Hk & _);
      [discriminate|exact Hlen|].
    exists (Z.of_nat k). split; [exact Hrun|]. split; [discriminate|lia].
Qed.

Lemma findSmallestBox_total_witness :
  exists idx, findSmallestBox initial_boxes = Some idx /\
              (initial_boxes = [] -> idx = 0) /\
              (initial_boxes <> [] -> 0 <= idx < Z.of_nat (length initial_boxes)).
Proof.
  apply (findSmallestBox_total initial_boxes). simpl. lia.
Defined.

(** ** Scores are defined on a non-empty history *)

Lemma at_in_range v i :
  0 <= i < Z.of_nat (length v) -> exists x, at_ v i = Some x.
Proof.
  intros Hi. unfold at_.
  destruct (Z.leb_spec 0 i); [|lia].
  destruct (Z.ltb_spec i (Z.of_nat (length v))); [|lia]. cbn [andb].
  destruct (nth_error v (Z.to_nat i)) eqn:E; [eauto|].
  apply nth_error_None in E. lia.
Qed.

Lemma recent_weights_of_nonempty absorbed :
  absorbed <> [] ->
  exists w ws, recent_weights_of absorbed = Some (w :: ws).
Proof.
  intros Hne. unfold recent_weights_of.
  destruct (Z.ltb_spec (Z.of_nat (length absorbed)) 3) as [Hlt|Hge].
  - destruct absorbed as [|w ws]; [congruence|eauto].
  - destruct (at_in_range absorbed (Z.of_nat (length absorbed) - 3)) as [a ->]; [lia|].
    destruct (at_in_range absorbed (Z.of_nat (length absorbed) - 2)) as [b ->]; [lia|].
    destruct (at_in_range absorbed (Z.of_nat (length absorbed) - 1)) as [c ->]; [lia|].
    cbn [bind]. eauto.
Qed.

Lemma calcScore_nonempty (b : Box) :
  absorbed_weights b <> [] -> exists score, calcScore b = Some score.
Proof.
  intros Hne. unfold calcScore. destruct (kind b).
  - eauto.
  - unfold GreenBox_calcScore.
    destruct (recent_weights_of_nonempty _ Hne) as (w & ws & ->).
    cbn [bind]. eauto.
  - unfold BlueBox_calcScore, min_element, max_element.
    destruct (absorbed_weights b) as [|w ws]; [congruence|].
    cbn [bind]. eauto.
Qed.

Lemma boxAbsorb_nonempty weight b : absorbed_weights (boxAbsorb weight b) <> [].
Proof. cbn. destruct (absorbed_weights b); discriminate. Qed.

(** ** Turns *)

Lemma store_box_length boxes i b : length (store_box boxes i b) = length boxes.
Proof.
  revert i. induction boxes as [|hd tl IH]; intros [|i]; cbn; auto.
Qed.

Lemma Forall2_store_box (R : Box -> Box -> Prop) l0 l i b0 b' :
  Forall2 R l0 l -> nth_error l0 i = Some b0 -> R b0 b' ->
  Forall2 R l0 (store_box l i b').
Proof.
  intros H. revert i. induction H as [|x y l0 l Hxy H IH]; intros [|i] Hi Hb;
    cbn in *; try discriminate.
  - injection Hi as ->. constructor; assumption.
  - constructor; [assumption|]. apply IH; assumption.
Qed.

Lemma Forall2_nth_error (R : Box -> Box -> Prop) l0 l i b :
  Forall2 R l0 l -> nth_error l i = Some b ->
  exists b0, nth_error l0 i = Some b0 /\ R b0 b.
Proof.
  intros H. revert i. induction H as [|x y l0 l Hxy H IH]; intros [|i] Hi;
    cbn in *; try discriminate.
  - injection Hi as ->. eauto.
  - apply IH. exact Hi.
Qed.

(** A turn on a non-empty vector of at most 65536 boxes: the selected box
    exists, and the score is read from it after the absorption. *)
Lemma takeTurn_spec input_weight boxes p :
  boxes <> [] -> Z.of_nat (length boxes) <= 65536 ->
  exists k box score,
    findSmallestBox boxes = Some (Z.of_nat k) /\
    nth_error boxes k = Some box /\
    calcScore (boxAbsorb input_weight box) = Some score /\
    takeTurn input_weight boxes p
    = Some (mkPlayer (score_ p + score)%float,
            store_box boxes k (boxAbsorb input_weight box)).
Proof.
  intros Hne Hlen.
  destruct (findSmallestBox_spec boxes Hne Hlen) as (k & Hrun & Hk & _).
  destruct (nth_error boxes k) as [box|] eqn:Hbox;
    [|apply nth_error_None in Hbox; lia].
  destruct (calcScore_nonempty (boxAbsorb input_weight box)) as [score Hscore];
    [apply boxAbsorb_nonempty|].
  exists k, box, score. repeat split; try assumption.
  unfold takeTurn. rewrite Hrun. cbn [bind]. rewrite Nat2Z.id, Hbox.
  cbn [bind]. rewrite Hscore. reflexivity.
Qed.

Lemma accumulate_snoc history weight initial :
  accumulate (history ++ [weight]) initial
  = (accumulate history initial + to_double weight)%float.
Proof. unfold accumulate. rewrite fold_left_app. reflexivity. Qed.

Lemma boxAbsorb_invariant b0 b weight :
  box_invariant b0 b -> box_invariant b0 (boxAbsorb weight b).
Proof.
  intros [Hkind Hweight]. split; [exact Hkind|].
  unfold weight_invariant in *. cbn. rewrite accumulate_snoc, Hweight.
  reflexivity.
Qed.

(** ** The game loop *)

Lemma next_count_range c : 0 <= c <= 65535 -> 0 <= next_count c <= 65535.
Proof.
  intros Hc. unfold next_count. destruct (Z.ltb_spec c 65535); [|lia].
  rewrite wrap16_small; lia.
Qed.

Lemma boxes_of_invariant g :
  Game_invariant g -> boxes g <> [] /\ Z.of_nat (length (boxes g)) <= 65536.
Proof.
  intros [H _]. apply Forall2_length in H. cbn in H.
  split; [destruct (boxes g); discriminate|lia].
Qed.

Lemma play_iter_spec g weight :
  Game_invariant g ->
  exists k box score,
    findSmallestBox (boxes g) = Some (Z.of_nat k) /\
    nth_error (boxes g) k = Some box /\
    calcScore (boxAbsorb weight box) = Some score /\
    play_iter g weight
    = Some (match player_of_count (count g) with
            | PlayerA =>
                mkGame (store_box (boxes g) k (boxAbsorb weight box))
                       (mkPlayer (score_ (player_A g) + score)%float)
                       (player_B g) (next_count (count g))
            | PlayerB =>
                mkGame (store_box (boxes g) k (boxAbsorb weight box))
                       (player_A g)
                       (mkPlayer (score_ (player_B g) + score)%float)
                       (next_count (count g))
            end).
Proof.
  intros Hinv. destruct (boxes_of_invariant g Hinv) as [Hne Hlen].
  destruct (takeTurn_spec weight (boxes g) (player_A g) Hne Hlen)
    as (k & box & score & Hrun & Hbox & Hscore & HturnA).
  destruct (takeTurn_spec weight (boxes g) (player_B g) Hne Hlen)
    as (k' & box' & score' & Hrun' & Hbox' & Hscore' & HturnB).
  assert (k' = k) by (rewrite Hrun in Hrun'; injection Hrun'; lia). subst k'.
  assert (box' = box) by congruence. subst box'.
  assert (score' = score) by congruence. subst score'.
  exists k, box, score. repeat split; try assumption.
  unfold play_iter.
  destruct (player_of_count (count g)); [rewrite HturnA|rewrite HturnB];
    reflexivity.
Qed.

Lemma play_iter_invariant g weight g' :
  Game_invariant g -> play_iter g weight = Some g' -> Game_invariant g'.
Proof.
  intros Hinv Hstep.
  destruct (play_iter_spec g weight Hinv)
    as (k & box & score & _ & Hbox & _ & Heq).
  rewrite Heq in Hstep. injection Hstep as <-.
  destruct Hinv as [Hboxes Hcount].
  destruct (Forall2_nth_error _ _ _ _ _ Hboxes Hbox) as (b0 & Hb0 & Hinv0).
  assert (Forall2 box_invariant initial_boxes
                  (store_box (boxes g) k (boxAbsorb weight box))).
  { eapply Forall2_store_box; eauto using boxAbsorb_invariant. }
  destruct (player_of_count (count g)); split; cbn;
    auto using next_count_range.
Qed.

Lemma new_Game_invariant : Game_invariant new_Game.
Proof.
  split; [|cbn; lia].
  repeat constructor.
Qed.

Lemma Reachable_invariant g : Reachable g -> Game_invariant g.
Proof.
  induction 1 as [|g g' weight _ IH _ Hstep].
  - exact new_Game_invariant.
  - exact (play_iter_invariant g weight g' IH Hstep).
Qed.

Lemma play_loop_total input_weights :
  forall g, Game_invariant g ->
    exists g', play_loop input_weights g = Some g' /\ Game_invariant g'.
Proof.
  induction input_weights as [|weight rest IH]; intros g Hinv.
  - exists g. split; [reflexivity|exact Hinv].
  - destruct (play_iter_spec g weight Hinv) as (k & box & score & _ & _ & _ & Heq).
    cbn [play_loop]. rewrite Heq. cbn [bind].
    apply IH. eapply play_iter_invariant; eassumption.
Qed.

Lemma play_loop_app ws1 ws2 :
  forall g, play_loop (ws1 ++ ws2) g = g' <- play_loop ws1 g ;; play_loop ws2 g'.
Proof.
  induction ws1 as [|w ws1 IH]; intros g; cbn; [reflexivity|].
  destruct (play_iter g w); cbn; [apply IH|reflexivity].
Qed.

(** C7: in every reachable game state the next turn, whoever takes it,
    reads the score of the selected box right after that box absorbed the
    weight of the turn, so [calcScore] reads a non-empty history and is
    defined; the turn itself is defined. *)
Theorem calcScore_reads_nonempty_history (g : Game) (weight : Z) :
  Reachable g ->
  exists k box score g',
    findSmallestBox (boxes g) = Some (Z.of_nat k) /\
    nth_error (boxes g) k = Some box /\
    absorbed_weights (boxAbsorb weight box) <> [] /\
    calcScore (boxAbsorb weight box) = Some score /\
    (forall p, takeTurn weight (boxes g) p
               = Some (mkPlayer (score_ p + score)%float,
                       store_box (boxes g) k (boxAbsorb weight box))) /\
    play_iter g weight = Some g'.
Proof.
  intros Hinv%Reachable_invariant.
  destruct (play_iter_spec g weight Hinv)
    as (k & box & score & Hrun & Hbox & Hscore & Hstep).
  eexists k, box, score, _.
  split; [exact Hrun|]. split; [exact Hbox|].
  split; [apply boxAbsorb_nonempty|]. split; [exact Hscore|].
  split; [|exact Hstep].
  intros p. unfold takeTurn. rewrite Hrun. cbn [bind].
  rewrite Nat2Z.id, Hbox. cbn [bind]. rewrite Hscore. reflexivity.
Qed.

Lemma calcScore_reads_nonempty_history_witness :
  exists k box score g',
    findSmallestBox (boxes new_Game) = Some (Z.of_nat k) /\
    nth_error (boxes new_Game) k = Some box /\
    absorbed_weights (boxAbsorb 5 box) <> [] /\
    calcScore (boxAbsorb 5 box) = Some score /\
    (forall p, takeTurn 5 (boxes new_Game) p
               = Some (mkPlayer (score_ p + score)%float,
                       store_box (boxes new_Game) k (boxAbsorb 5 box))) /\
    play_iter new_Game 5 = Some g'.
Proof.
  apply (calcScore_reads_nonempty_history new_Game 5). exact Reachable_new.
Defined.

(** C9: a call of [play] returns a score pair that is fixed by the input
    weights alone: whatever the output stream held before the call, the
    call succeeds with the same pair. *)
Theorem play_deterministic (input_weights : list Z) :
  exists scores,
    play input_weights = Some scores /\
    forall cout, exists cout',
      play_in input_weights cout = Some (scores, cout').
Proof.
  destruct (play_loop_total input_weights new_Game new_Game_invariant)
    as (g & Hrun & _).
  exists (getScore (player_A g), getScore (player_B g)). split.
  - unfold play, play_in. rewrite Hrun. reflexivity.
  - intros cout. unfold play_in. rewrite Hrun. cbn [bind]. eauto.
Qed.

Lemma absorb_all_spec weights :
  forall b,
    absorbed_weights (absorb_all weights b) = absorbed_weights b ++ weights /\
    weight_ (absorb_all weights b) = accumulate weights (weight_ b) /\
    kind (absorb_all weights b) = kind b.
Proof.
  induction weights as [|w ws IH]; intros b; cbn.
  - rewrite app_nil_r. auto.
  - destruct (IH (boxAbsorb w b)) as (Hh & Hw & Hk).
    unfold absorb_all in *. rewrite Hh, Hw, Hk. cbn.
    rewrite <- app_assoc. auto.
Qed.

Lemma Reachable_game_after_5 : Reachable game_after_5.
Proof.
  apply (Reachable_turn new_Game game_after_5 5 Reachable_new).
  - unfold is_uint32, UINT32_MODULUS. lia.
  - vm_compute. reflexivity.
Qed.


(** C5: the three end-to-end games of the specification. *)
Theorem play_scenarios :
  play [1; 1; 2; 3] = Some (13.0, 25.0)%float /\
  play [1; 1; 2; 3; 5; 8; 13; 21] = Some (155.0, 366.25)%float /\
  play [] = Some (0.0, 0.0)%float.
Proof. repeat split; vm_compute; reflexivity. Qed.

Example play_single : play [5] = Some (25.0, 0.0)%float.
Proof. vm_compute. reflexivity. Qed.

Example play_two : play [1; 100] = Some (1.0, 10000.0)%float.
Proof. vm_compute. reflexivity. Qed.

(** ** The turn counter *)

Lemma count_at_eq (i : nat) : count_at i = Z.min (Z.of_nat i) 65535.
Proof.
  unfold count_at. induction i as [|i IH]; [reflexivity|].
  rewrite Nat.iter_succ, IH. unfold next_count.
  destruct (Z.ltb_spec (Z.min (Z.of_nat i) 65535) 65535).
  - rewrite wrap16_small; lia.
  - lia.
Qed.

Lemma play_iter_count g weight g' :
  play_iter g weight = Some g' -> count g' = next_count (count g).
Proof.
  unfold play_iter.
  destruct (player_of_count (count g));
    destruct (takeTurn _ _ _); cbn; intros [= <-]; reflexivity.
Qed.

(** The counter that [play] holds after a run of turns is the counter of
    the definition of [player_of_turn]. *)
Lemma play_loop_count input_weights :
  forall g g', play_loop input_weights g = Some g' ->
    count g' = Nat.iter (length input_weights) next_count (count g).
Proof.
  induction input_weights as [|w ws IH]; intros g g'; cbn [play_loop length].
  - intros [= <-]. reflexivity.
  - destruct (play_iter g w) as [g1|] eqn:Hstep; [|discriminate]. cbn [bind].
    intros Hrun. rewrite (IH g1 g' Hrun), (play_iter_count g w g1 Hstep).
    symmetry. apply Nat.iter_succ_r.
Qed.

Lemma play_loop_count_at input_weights g :
  play_loop input_weights new_Game = Some g ->
  count g = count_at (length input_weights) /\
  player_of_count (count g) = player_of_turn (length input_weights).
Proof.
  intros Hrun. apply play_loop_count in Hrun.
  unfold player_of_turn, count_at. rewrite Hrun. split; reflexivity.
Qed.

Lemma even_of_nat (n : nat) : Z.even (Z.of_nat n) = Nat.even n.
Proof.
  induction n as [|n IH]; [reflexivity|].
  rewrite Nat2Z.inj_succ, Z.even_succ, <- Z.negb_even, IH.
  rewrite Nat.even_succ. unfold Nat.odd. reflexivity.
Qed.

(** The turns below 65536 alternate, player A first. *)
Lemma player_of_turn_alternates (i : nat) :
  Z.of_nat i < 65536 -> player_of_turn i = alternating_player i.
Proof.
  intros Hi. unfold player_of_turn, alternating_player, player_of_count.
  rewrite count_at_eq, Z.min_l by lia.
  rewrite <- Zeven_mod, even_of_nat. reflexivity.
Qed.

(** From turn 65535 on the counter stays at 65535, and player B moves. *)
Lemma player_of_turn_saturates (i : nat) :
  65535 <= Z.of_nat i -> player_of_turn i = PlayerB.
Proof.
  intros Hi. unfold player_of_turn. rewrite count_at_eq, Z.min_r by lia.
  reflexivity.
Qed.

(** ** A game of 65536 zero weights *)

Lemma GreenBox_calcScore_zeros (n : nat) :
  GreenBox_calcScore (repeat 0 (S n)) = Some 0%float.
Proof.
  destruct n as [|[|n]]; [reflexivity|reflexivity|].
  unfold GreenBox_calcScore, recent_weights_of.
  rewrite repeat_length.
  destruct (Z.ltb_spec (Z.of_nat (S (S (S n)))) 3); [lia|].
  assert (Hat : forall i, 0 <= i < Z.of_nat (S (S (S n))) ->
                          at_ (repeat 0 (S (S (S n)))) i = Some 0).
  { intros i Hi. unfold at_. rewrite repeat_length.
    destruct (Z.leb_spec 0 i); [|lia].
    destruct (Z.ltb_spec i (Z.of_nat (S (S (S n))))); [|lia]. cbn [andb].
    apply nth_error_repeat. lia. }
  rewrite !Hat by lia. reflexivity.
Qed.

Lemma play_iter_zeros (n : nat) :
  play_iter (zeros_Game n) 0 = Some (zeros_Game (S n)).
Proof.
  assert (Hturn : takeTurn 0 (boxes (zeros_Game n)) new_Player
                  = Some (new_Player, boxes (zeros_Game (S n)))).
  { unfold takeTurn, zeros_Game. cbn [boxes].
    change (findSmallestBox _) with (Some 0). cbn [bind Z.to_nat nth_error].
    unfold calcScore, boxAbsorb. cbn [kind absorbed_weights weight_].
    rewrite <- repeat_cons. change (0 :: repeat 0 n) with (repeat 0 (S n)).
    rewrite GreenBox_calcScore_zeros. reflexivity. }
  unfold play_iter.
  change (player_A (zeros_Game n)) with new_Player.
  change (player_B (zeros_Game n)) with new_Player.
  rewrite Hturn. cbn [bind fst snd].
  change (count (zeros_Game n)) with (count_at n).
  destruct (player_of_count (count_at n)); reflexivity.
Qed.

Lemma play_loop_zeros (n : nat) :
  forall k, play_loop (repeat 0 n) (zeros_Game k) = Some (zeros_Game (n + k)).
Proof.
  induction n as [|n IH]; intros k; [reflexivity|].
  cbn [repeat play_loop]. rewrite play_iter_zeros. cbn [bind].
  rewrite IH. f_equal. f_equal. lia.
Qed.

(** C1 fails from turn 65536 on.  After 65536 weights of 0, which all go to
    the first box and score 0, the weight 5 of turn 65536 (an even index)
    is scored for player B: the counter stopped at 65535. *)
Theorem play_turn_65536 :
  player_of_turn (Z.to_nat 65536) = PlayerB /\
  alternating_player (Z.to_nat 65536) = PlayerA /\
  play (repeat 0 (Z.to_nat 65536) ++ [5]) = Some (0, 5 / 3 * (5 / 3))%float.
Proof.
  split; [apply player_of_turn_saturates; vm_compute; discriminate|].
  split; [vm_compute; reflexivity|].
  unfold play, play_in. rewrite play_loop_app.
  change new_Game with (zeros_Game 0).
  rewrite play_loop_zeros. cbn [bind].
  vm_compute. reflexivity.
Qed.

(** ** Exact operations of binary64 *)

Lemma fexp_eq x : fexp prec emax x = Z.max (x - 53) (-1074).
Proof. reflexivity. Qed.

Lemma canonical_iff m e :
  canonical_mantissa prec emax m e = true <->
  Z.max (Zpos (digits2_pos m) + e - 53) (-1074) = e.
Proof. unfold canonical_mantissa. rewrite Z.eqb_eq, fexp_eq. reflexivity. Qed.

Lemma shr_fexp_canonical m e :
  canonical_mantissa prec emax m e = true ->
  shr_fexp prec emax (Zpos m) e loc_Exact
  = ({| shr_m := Zpos m; shr_r := false; shr_s := false |}, e).
Proof.
  intros H. apply canonical_iff in H.
  unfold shr_fexp. rewrite fexp_eq. cbn [Zdigits2].
  rewrite H, Z.sub_diag. reflexivity.
Qed.

(** Rounding a canonical mantissa changes nothing. *)
Lemma binary_round_aux_canonical sx m e :
  bounded prec emax m e = true ->
  binary_round_aux prec emax sx (Zpos m) e loc_Exact = S754_finite sx m e.
Proof.
  unfold bounded. intros [Hc He]%andb_true_iff.
  unfold binary_round_aux. rewrite shr_fexp_canonical by exact Hc.
  cbn [shr_m loc_of_shr_record round_nearest_even].
  rewrite shr_fexp_canonical by exact Hc. cbn [shr_m].
  rewrite He. reflexivity.
Qed.

(** Rounding the doubled mantissa of a normal number, one exponent below. *)
Lemma binary_round_aux_doubled sx m e :
  bounded prec emax m e = true -> -1074 < e ->
  binary_round_aux prec emax sx (Zpos m~0) (e - 1) loc_Exact
  = S754_finite sx m e.
Proof.
  intros Hb Hmin. pose proof Hb as [Hc He]%andb_true_iff.
  pose proof Hc as Hd%canonical_iff.
  unfold binary_round_aux.
  assert (Hshift : shr_fexp prec emax (Zpos m~0) (e - 1) loc_Exact
                   = ({| shr_m := Zpos m; shr_r := false; shr_s := false |}, e)).
  { unfold shr_fexp. rewrite fexp_eq. cbn [Zdigits2 digits2_pos].
    replace (Z.max (Zpos (Pos.succ (digits2_pos m)) + (e - 1) - 53) (-1074)
             - (e - 1)) with 1 by lia.
    cbn. f_equal. lia. }
  rewrite Hshift. cbn [shr_m loc_of_shr_record round_nearest_even].
  rewrite shr_fexp_canonical by exact Hc. cbn [shr_m].
  rewrite He. reflexivity.
Qed.

Lemma div_eucl_exact a b : 0 < b -> Z.div_eucl (a * b) b = (a, 0).
Proof.
  intros Hb. rewrite (surjective_pairing (Z.div_eucl (a * b) b)).
  change (fst (Z.div_eucl (a * b) b)) with (a * b / b).
  change (snd (Z.div_eucl (a * b) b)) with ((a * b) mod b).
  rewrite Z.div_mul, Z.mod_mul by lia. reflexivity.
Qed.

(** The quotient of a canonical mantissa by the mantissa 2^52 of 1.0. *)
Lemma SFdiv_core_by_one m e :
  canonical_mantissa prec emax m e = true ->
  SFdiv_core_binary prec emax (Zpos m) e 4503599627370496 (-52)
  = if e =? -1074 then (Zpos m, e, loc_Exact)
    else (Zpos m~0, e - 1, loc_Exact).
Proof.
  intros Hd%canonical_iff. unfold SFdiv_core_binary.
  rewrite fexp_eq. cbn [Zdigits2].
  change (Zpos (digits2_pos 4503599627370496)) with 53.
  pose proof (Pos2Z.is_pos (digits2_pos m)) as Hpos.
  destruct (Z.eqb_spec e (-1074)) as [->|Hne].
  - replace (Z.min _ _) with (-1074) by lia.
    change (-1074 - -52 - -1074) with 52.
    rewrite Z.shiftl_mul_pow2 by lia.
    change (2 ^ 52) with 4503599627370496.
    rewrite div_eucl_exact by lia. reflexivity.
  - replace (Z.min _ _) with (e - 1) by lia.
    replace (e - -52 - (e - 1)) with 53 by lia.
    rewrite Z.shiftl_mul_pow2 by lia.
    replace (Zpos m * 2 ^ 53) with (Zpos m~0 * 4503599627370496) by lia.
    rewrite div_eucl_exact by lia. reflexivity.
Qed.

Lemma SFdiv_one x :
  valid_binary x = true ->
  SF64div x (S754_finite false 4503599627370496 (-52)) = x.
Proof.
  destruct x as [s|s| |s m e]; cbn [SpecFloat.valid_binary SF64div SFdiv];
    intros Hv.
  - rewrite xorb_false_r. reflexivity.
  - rewrite xorb_false_r. reflexivity.
  - reflexivity.
  - pose proof Hv as [Hc He]%andb_true_iff.
    rewrite SFdiv_core_by_one by exact Hc. rewrite xorb_false_r.
    destruct (Z.eqb_spec e (-1074)) as [Heq|Hne].
    + apply binary_round_aux_canonical, Hv.
    + apply binary_round_aux_doubled; [exact Hv|].
      apply canonical_iff in Hc. lia.
Qed.

(** Division by 1.0 is exact. *)
Lemma div_one (x : float) : (x / 1)%float = x.
Proof.
  apply Prim2SF_inj. rewrite div_spec.
  change (Prim2SF 1) with (S754_finite false 4503599627370496 (-52)).
  apply SFdiv_one, Prim2SF_valid.
Qed.

Lemma binary_round_aux_zero_sign sx m e l s :
  binary_round_aux prec emax sx m e l = S754_zero s -> s = sx.
Proof.
  unfold binary_round_aux.
  destruct (shr_fexp prec emax m e l) as [mrs' e'].
  destruct (shr_fexp prec emax _ e' loc_Exact) as [mrs'' e''].
  destruct (shr_m mrs'') as [|p|p]; try discriminate.
  - intros [= <-]. reflexivity.
  - destruct (e'' <=? emax - prec); discriminate.
Qed.

Lemma binary_normalize_zero_sign m s :
  0 <= m -> binary_normalize prec emax m 0 false = S754_zero s -> s = false.
Proof.
  destruct m as [|p|p]; cbn [binary_normalize]; intros Hm.
  - intros [= <-]. reflexivity.
  - unfold binary_round. destruct (shl_align _ _ _) as [mz ez].
    apply binary_round_aux_zero_sign.
  - lia.
Qed.

Lemma SFadd_zero_l y :
  (forall s, y = S754_zero s -> s = false) ->
  SF64add (S754_zero false) y = y.
Proof.
  destruct y as [s|s| |s m e]; intros H; try reflexivity.
  rewrite (H s eq_refl). reflexivity.
Qed.

Lemma to_double_SF w :
  Prim2SF (to_double w)
  = binary_normalize prec emax (Uint63.to_Z (Uint63.of_Z w)) 0 false.
Proof. apply of_uint63_spec. Qed.

(** The first addition of an accumulation from 0.0 is exact. *)
Lemma zero_plus_to_double w : (0 + to_double w)%float = to_double w.
Proof.
  apply Prim2SF_inj. rewrite add_spec.
  change (Prim2SF 0) with (S754_zero false).
  apply SFadd_zero_l. intros s. rewrite to_double_SF.
  apply binary_normalize_zero_sign.
  apply Uint63.to_Z_bounded.
Qed.

(** ** The windowed mean *)

Lemma last_three_split (history : list Z) :
  (3 <= length history)%nat ->
  exists pre a b c, history = pre ++ [a; b; c].
Proof.
  intros Hlen.
  rewrite <- (firstn_skipn (length history - 3) history).
  assert (Hs : length (skipn (length history - 3) history) = 3%nat)
    by (rewrite length_skipn; lia).
  destruct (skipn (length history - 3) history) as [|a [|b [|c [|d l]]]];
    try discriminate.
  eauto.
Qed.

Lemma recent_weights_of_last (history : list Z) :
  recent_weights_of history
  = Some (last_weights (Nat.min 3 (length history)) history).
Proof.
  unfold recent_weights_of, last_weights.
  destruct (Z.ltb_spec (Z.of_nat (length history)) 3) as [Hlt|Hge].
  - rewrite Nat.min_r, Nat.sub_diag by lia. reflexivity.
  - rewrite Nat.min_l by lia.
    destruct (last_three_split history) as (pre & a & b & c & ->); [lia|].
    rewrite length_app. cbn [length].
    replace (length pre + 3 - 3)%nat with (length pre) by lia.
    rewrite skipn_app, skipn_all, Nat.sub_diag. cbn [skipn app].
    unfold at_. rewrite length_app. cbn [length].
    repeat match goal with
    | |- context [(0 <=? ?i) && (?i <? ?n)] =>
        replace ((0 <=? i) && (i <? n)) with true
          by (symmetry; apply andb_true_iff; split;
              [apply Z.leb_le|apply Z.ltb_lt]; lia)
    end.
    replace (Z.to_nat (Z.of_nat (length pre + 3) - 3)) with (length pre + 0)%nat by lia.
    replace (Z.to_nat (Z.of_nat (length pre + 3) - 2)) with (length pre + 1)%nat by lia.
    replace (Z.to_nat (Z.of_nat (length pre + 3) - 1)) with (length pre + 2)%nat by lia.
    rewrite !nth_error_app2 by lia.
    replace (length pre + 0 - length pre)%nat with 0%nat by lia.
    replace (length pre + 1 - length pre)%nat with 1%nat by lia.
    replace (length pre + 2 - length pre)%nat with 2%nat by lia.
    reflexivity.
Qed.

Lemma GreenBox_calcScore_spec (history : list Z) :
  history <> [] ->
  GreenBox_calcScore history = Some (windowed_mean_square history).
Proof.
  intros Hne. unfold GreenBox_calcScore, windowed_mean_square.
  pose proof (recent_weights_of_last history) as Hlast.
  destruct (recent_weights_of_nonempty history Hne) as (w & ws & Hw).
  assert (Heq : last_weights (Nat.min 3 (length history)) history = w :: ws)
    by congruence.
  rewrite Hw, Heq. reflexivity.
Qed.

(** C3: after any non-empty sequence of absorptions a green box scores the
    square of the mean of the last [min 3 (length history)] absorbed
    weights; after [w1] alone that is the square of [w1], after [w1; w2]
    the square of their half sum, and after four absorptions the score of
    the last three. *)
Theorem GreenBox_calcScore_window (initial_weight : float) :
  (forall history, history <> [] ->
     calcScore (absorb_all history (makeGreenBox initial_weight))
     = Some (windowed_mean_square history)) /\
  (forall w1,
     calcScore (absorb_all [w1] (makeGreenBox initial_weight))
     = Some (to_double w1 * to_double w1)%float) /\
  (forall w1 w2,
     calcScore (absorb_all [w1; w2] (makeGreenBox initial_weight))
     = Some ((to_double w1 + to_double w2) / 2
             * ((to_double w1 + to_double w2) / 2))%float) /\
  (forall w1 w2 w3 w4,
     calcScore (absorb_all [w1; w2; w3; w4] (makeGreenBox initial_weight))
     = calcScore (absorb_all [w2; w3; w4] (makeGreenBox initial_weight))).
Proof.
  assert (Hcalc : forall history,
             calcScore (absorb_all history (makeGreenBox initial_weight))
             = GreenBox_calcScore history).
  { intros history. unfold calcScore.
    destruct (absorb_all_spec history (makeGreenBox initial_weight))
      as (-> & _ & ->). reflexivity. }
  split; [|split; [|split]].
  - intros history Hne. rewrite Hcalc. apply GreenBox_calcScore_spec, Hne.
  - intros w1. rewrite Hcalc.
    unfold GreenBox_calcScore. cbn [recent_weights_of length Z.of_nat
      Pos.of_succ_nat Z.ltb Z.compare Pos.compare Pos.compare_cont bind
      accumulate fold_left].
    change (to_double 1) with 1%float.
    rewrite zero_plus_to_double, div_one. reflexivity.
  - intros w1 w2. rewrite Hcalc.
    unfold GreenBox_calcScore. cbn [recent_weights_of length Z.of_nat
      Pos.of_succ_nat Pos.succ Z.ltb Z.compare Pos.compare Pos.compare_cont
      bind accumulate fold_left].
    change (to_double 2) with 2%float.
    rewrite zero_plus_to_double. reflexivity.
  - intros w1 w2 w3 w4. rewrite !Hcalc. reflexivity.
Qed.

Lemma GreenBox_calcScore_window_witness :
  calcScore (absorb_all [1; 2; 3; 5] (makeGreenBox 0))
  = Some (windowed_mean_square [1; 2; 3; 5]).
Proof.
  apply (proj1 (GreenBox_calcScore_window 0)). discriminate.
Defined.

(** ** The pairing of a blue box *)

Lemma min_element_fold rest :
  forall first,
    let m := fold_left (fun smallest x => if x <? smallest then x else smallest)
                       rest first in
    In m (first :: rest) /\ forall x, In x (first :: rest) -> m <= x.
Proof.
  induction rest as [|y rest IH]; intros first; cbn [fold_left].
  - split; [left; reflexivity|]. intros x [<-|[]]. lia.
  - destruct (IH (if y <? first then y else first)) as [Hin Hle].
    split.
    + destruct Hin as [Hin|Hin]; [|right; right; exact Hin].
      rewrite <- Hin. destruct (y <? first); [right; left|left]; reflexivity.
    + intros x Hx.
      assert (Hm := Hle _ (or_introl eq_refl)).
      destruct (Z.ltb_spec y first);
        destruct Hx as [<-|[<-|Hx]]; try lia; apply Hle; right; exact Hx.
Qed.

Lemma max_element_fold rest :
  forall first,
    let m := fold_left (fun largest x => if largest <? x then x else largest)
                       rest first in
    In m (first :: rest) /\ forall x, In x (first :: rest) -> x <= m.
Proof.
  induction rest as [|y rest IH]; intros first; cbn [fold_left].
  - split; [left; reflexivity|]. intros x [<-|[]]. lia.
  - destruct (IH (if first <? y then y else first)) as [Hin Hle].
    split.
    + destruct Hin as [Hin|Hin]; [|right; right; exact Hin].
      rewrite <- Hin. destruct (first <? y); [right; left|left]; reflexivity.
    + intros x Hx.
      assert (Hm := Hle _ (or_introl eq_refl)).
      destruct (Z.ltb_spec first y);
        destruct Hx as [<-|[<-|Hx]]; try lia; apply Hle; right; exact Hx.
Qed.

(** A blue box pairs the least and the greatest absorbed weight, whatever
    the order of absorption and whatever lies between the two. *)
Lemma BlueBox_calcScore_extremes history m M :
  In m history -> In M history ->
  (forall x, In x history -> m <= x <= M) ->
  BlueBox_calcScore history = Some (pairing m M).
Proof.
  intros Hm HM Hall. unfold BlueBox_calcScore, min_element, max_element.
  destruct history as [|first rest]; [destruct Hm|]. cbn [bind].
  destruct (min_element_fold rest first) as [Hin1 Hle1].
  destruct (max_element_fold rest first) as [Hin2 Hle2].
  cbv zeta in Hin1, Hle1, Hin2, Hle2.
  pose proof (Hall _ Hin1). pose proof (Hall _ Hin2).
  pose proof (Hle1 _ Hm). pose proof (Hle2 _ HM).
  do 2 f_equal; lia.
Qed.

(** C2 fails where [min + max] leaves 32 bits.  A blue box that absorbed
    the single weight 2147483648 pairs the unsigned 32-bit sum 0 and scores
    2147483648, where Cantor's pairing of the promoted operands is
    9223372041149743104.  The game [play [1; 1; 2147483648]] reaches that
    box on its third turn: player A ends with 1 + 2147483648. *)
Theorem BlueBox_calcScore_wraps :
  calcScore (absorb_all [2147483648] (makeBlueBox 0.5))
  = Some 2147483648%float /\
  cantor_pairing 2147483648 2147483648 = 9223372041149743104%float /\
  play [1; 1; 2147483648] = Some (2147483649, 1)%float.
Proof. repeat split; vm_compute; reflexivity. Qed.

(** ** Rounding never goes below a smaller number *)

Lemma digits2_pos_bounds (p : positive) :
  2 ^ (Zpos (digits2_pos p) - 1) <= Zpos p < 2 ^ Zpos (digits2_pos p).
Proof.
  induction p as [p IH|p IH|]; cbn [digits2_pos].
  - rewrite Pos2Z.inj_succ. change (Zpos p~1) with (2 * Zpos p + 1).
    replace (Z.succ (Zpos (digits2_pos p)) - 1) with (Z.succ (Zpos (digits2_pos p) - 1)) by lia.
    rewrite !Z.pow_succ_r by lia. lia.
  - rewrite Pos2Z.inj_succ. change (Zpos p~0) with (2 * Zpos p).
    replace (Z.succ (Zpos (digits2_pos p)) - 1) with (Z.succ (Zpos (digits2_pos p) - 1)) by lia.
    rewrite !Z.pow_succ_r by lia. lia.
  - split; [vm_compute; discriminate|reflexivity].
Qed.

Lemma shr_1_div2 mrs : 0 <= shr_m mrs -> shr_m (shr_1 mrs) = shr_m mrs / 2.
Proof.
  destruct mrs as [m r s]. cbn [shr_m]. intros Hm.
  destruct m as [|[p|p|]|p]; cbn [shr_1 shr_m]; try reflexivity; try lia.
  - change (Zpos p~1) with (2 * Zpos p + 1).
    apply Z.div_unique with (r := 1); lia.
  - change (Zpos p~0) with (2 * Zpos p).
    apply Z.div_unique with (r := 0); lia.
Qed.

Lemma iter_shr_1_div (p : positive) :
  forall mrs, 0 <= shr_m mrs ->
    shr_m (iter_pos shr_1 p mrs) = shr_m mrs / 2 ^ Zpos p.
Proof.
  induction p as [p IH|p IH|]; intros mrs Hm; cbn [iter_pos].
  - assert (H1 : 0 <= shr_m (shr_1 mrs)) by (rewrite shr_1_div2 by lia; apply Z.div_pos; lia).
    assert (H2 : 0 <= shr_m (iter_pos shr_1 p (shr_1 mrs)))
      by (rewrite IH by lia; apply Z.div_pos; [lia|apply Z.pow_pos_nonneg; lia]).
    rewrite IH, IH, shr_1_div2 by lia.
    rewrite !Z.div_div by (try apply Z.pow_pos_nonneg; lia).
    f_equal. change (Zpos p~1) with (2 * Zpos p + 1).
    replace (2 * Zpos p + 1) with (1 + Zpos p + Zpos p) by lia.
    rewrite !Z.pow_add_r by lia. change (2 ^ 1) with 2. ring.
  - assert (H2 : 0 <= shr_m (iter_pos shr_1 p mrs))
      by (rewrite IH by lia; apply Z.div_pos; [lia|apply Z.pow_pos_nonneg; lia]).
    rewrite IH, IH by lia.
    rewrite !Z.div_div by (try apply Z.pow_pos_nonneg; lia).
    f_equal. change (Zpos p~0) with (2 * Zpos p).
    replace (2 * Zpos p) with (Zpos p + Zpos p) by lia.
    rewrite Z.pow_add_r by lia. reflexivity.
  - apply shr_1_div2, Hm.
Qed.

Lemma Zdigits2_bounds m :
  0 < m -> 2 ^ (Zdigits2 m - 1) <= m < 2 ^ Zdigits2 m.
Proof.
  destruct m as [|p|p]; try lia. intros _. apply digits2_pos_bounds.
Qed.

Lemma shr_spec mrs e n :
  0 <= shr_m mrs ->
  shr_m (fst (shr mrs e n)) = shr_m mrs / 2 ^ Z.max n 0 /\
  snd (shr mrs e n) = e + Z.max n 0.
Proof.
  intros Hm. destruct n as [|p|p]; cbn [shr fst snd].
  - change (2 ^ Z.max 0 0) with 1. rewrite Z.div_1_r. lia.
  - rewrite Z.max_l by lia. split; [apply iter_shr_1_div, Hm|reflexivity].
  - rewrite Z.max_r by lia. change (2 ^ 0) with 1. rewrite Z.div_1_r. lia.
Qed.

Lemma shr_fexp_spec m e l :
  0 <= m ->
  shr_m (fst (shr_fexp prec emax m e l))
  = m / 2 ^ Z.max (fexp prec emax (Zdigits2 m + e) - e) 0 /\
  snd (shr_fexp prec emax m e l)
  = e + Z.max (fexp prec emax (Zdigits2 m + e) - e) 0.
Proof.
  intros Hm. unfold shr_fexp.
  assert (H : shr_m (shr_record_of_loc m l) = m) by (destruct l as [|[]]; reflexivity).
  destruct (shr_spec (shr_record_of_loc m l) e
              (fexp prec emax (Zdigits2 m + e) - e)) as [H1 H2]; [lia|].
  rewrite H in H1. split; assumption.
Qed.

Lemma shifted_positive m e :
  0 < m -> -1074 <= e ->
  0 < m / 2 ^ Z.max (fexp prec emax (Zdigits2 m + e) - e) 0.
Proof.
  intros Hm He. pose proof (Zdigits2_bounds m Hm) as [Hlo Hhi].
  rewrite fexp_eq.
  destruct (Z.le_gt_cases (Zdigits2 m) 53) as [Hd|Hd].
  - rewrite Z.max_r by lia. change (2 ^ 0) with 1. rewrite Z.div_1_r. exact Hm.
  - replace (Z.max _ 0) with (Zdigits2 m - 53) by lia.
    apply Z.lt_le_trans with (2 ^ 52); [reflexivity|].
    apply Z.div_le_lower_bound; [apply Z.pow_pos_nonneg; lia|].
    rewrite <- Z.pow_add_r by lia.
    replace (Zdigits2 m - 53 + 52) with (Zdigits2 m - 1) by lia. exact Hlo.
Qed.

Lemma round_nearest_even_ge m l : m <= round_nearest_even m l.
Proof.
  destruct l as [|[]]; cbn [round_nearest_even]; try destruct (Z.even m); lia.
Qed.

Lemma binary_round_aux_lower_bound mx ex m e l :
  canonical_mantissa prec emax mx ex = true ->
  -1074 <= e <= ex ->
  Zpos mx * 2 ^ (ex - e) <= m ->
  SFleb (S754_finite false mx ex) (binary_round_aux prec emax false m e l) = true.
Proof.
  intros Hc%canonical_iff He Hm.
  assert (Hpow : 0 < 2 ^ (ex - e)) by (apply Z.pow_pos_nonneg; lia).
  assert (Hmpos : 0 < m) by nia.
  pose proof (Zdigits2_bounds m Hmpos) as [Hlo Hhi].
  pose proof (digits2_pos_bounds mx) as [Hxlo Hxhi].
  assert (Hd : Zpos (digits2_pos mx) + ex <= Zdigits2 m + e).
  { assert (2 ^ (Zpos (digits2_pos mx) - 1 + (ex - e)) < 2 ^ Zdigits2 m).
    { rewrite Z.pow_add_r by lia. nia. }
    destruct (Z.le_gt_cases (Zdigits2 m) (Zpos (digits2_pos mx) - 1 + (ex - e)))
      as [Hle|Hgt]; [|lia].
    apply (Z.pow_le_mono_r 2) in Hle; lia. }
  pose proof (shifted_positive m e Hmpos (proj1 He)) as Hm1.
  unfold binary_round_aux.
  destruct (shr_fexp_spec m e l) as [Hs1 He1]; [lia|].
  destruct (shr_fexp prec emax m e l) as [mrs1 e1]. cbn [fst snd] in Hs1, He1.
  rewrite <- Hs1 in Hm1.
  pose proof (round_nearest_even_ge (shr_m mrs1) (loc_of_shr_record mrs1)) as Hr.
  set (m2 := round_nearest_even (shr_m mrs1) (loc_of_shr_record mrs1)) in *.
  assert (He1' : ex <= e1 /\ -1074 <= e1) by (rewrite fexp_eq in He1; lia).
  assert (Hm2 : 0 < m2) by lia.
  pose proof (shifted_positive m2 e1 Hm2 (proj2 He1')) as Hm3.
  destruct (shr_fexp_spec m2 e1 loc_Exact) as [Hs2 He2]; [lia|].
  destruct (shr_fexp prec emax m2 e1 loc_Exact) as [mrs2 e2].
  cbn [fst snd] in Hs2, He2. rewrite <- Hs2 in Hm3.
  destruct (shr_m mrs2) as [|p|p] eqn:Hp; try lia.
  destruct (e2 <=? emax - prec); [|reflexivity].
  unfold SFleb, SFcompare.
  destruct (Z.compare_spec ex e2) as [Heq|Hlt|Hgt]; try reflexivity; [|lia].
  assert (Hn2 : Z.max (fexp prec emax (Zdigits2 m2 + e1) - e1) 0 = 0) by lia.
  assert (Hn1 : Z.max (fexp prec emax (Zdigits2 m + e) - e) 0 = ex - e) by lia.
  rewrite Hn2 in Hs2. change (2 ^ 0) with 1 in Hs2. rewrite Z.div_1_r in Hs2.
  rewrite Hn1 in Hs1.
  assert (Zpos mx <= shr_m mrs1).
  { rewrite Hs1. apply Z.div_le_lower_bound; lia. }
  change (Pos.compare_cont Eq mx p) with (Pos.compare mx p).
  destruct (Pos.compare_spec mx p); try reflexivity. lia.
Qed.

Lemma iter_xO_pow (m d : positive) :
  Zpos (Pos.iter xO m d) = Zpos m * 2 ^ Zpos d.
Proof.
  induction d as [|d IH] using Pos.peano_ind.
  - cbn [Pos.iter]. change (Zpos m~0) with (2 * Zpos m). change (2 ^ 1) with 2. lia.
  - rewrite Pos.iter_succ, Pos2Z.inj_succ, Z.pow_succ_r by lia.
    change (Zpos (Pos.iter xO m d)~0) with (2 * Zpos (Pos.iter xO m d)).
    rewrite IH. ring.
Qed.

Lemma shl_align_spec m e e' :
  snd (shl_align m e e') = Z.min e e' /\
  Zpos (fst (shl_align m e e')) = Zpos m * 2 ^ (e - Z.min e e').
Proof.
  unfold shl_align. destruct (e' - e) as [|d|d] eqn:Hd; cbn [fst snd].
  - rewrite Z.min_l by lia. rewrite Z.sub_diag. change (2 ^ 0) with 1. lia.
  - rewrite Z.min_l by lia. rewrite Z.sub_diag. change (2 ^ 0) with 1. lia.
  - rewrite Z.min_r by lia. split; [reflexivity|].
    rewrite iter_xO_pow. f_equal. f_equal. lia.
Qed.

Lemma canonical_emin m e :
  canonical_mantissa prec emax m e = true -> -1074 <= e.
Proof. intros H%canonical_iff. lia. Qed.

Lemma SFcompare_refl_finite m e :
  SFleb (S754_finite false m e) (S754_finite false m e) = true.
Proof.
  unfold SFleb, SFcompare. rewrite Z.compare_refl.
  change (Pos.compare_cont Eq m m) with (Pos.compare m m).
  rewrite Pos.compare_refl. reflexivity.
Qed.

(** Adding a number that is not below zero does not decrease a sum. *)
Lemma SFadd_ge x s :
  valid_binary x = true -> valid_binary s = true ->
  SFnonneg x = true -> SFnonneg s = true ->
  SFleb x (SF64add x s) = true.
Proof.
  destruct x as [sx|sx| |sx mx ex], s as [ss|ss| |ss my ey];
    cbn [SFnonneg negb]; intros Hvx Hvs Hx Hs; try discriminate;
    repeat match goal with
    | H : negb ?b = true |- _ => apply negb_true_iff in H; subst b
    end;
    try (destruct sx; destruct ss; reflexivity);
    try (destruct sx; reflexivity); try (destruct ss; reflexivity);
    try reflexivity.
  - apply SFcompare_refl_finite.
  - cbn [SpecFloat.valid_binary] in Hvx, Hvs.
    apply andb_true_iff in Hvx as [Hcx _]. apply andb_true_iff in Hvs as [Hcy _].
    pose proof (canonical_emin _ _ Hcx). pose proof (canonical_emin _ _ Hcy).
    unfold SF64add, SFadd. cbn [cond_Zopp].
    set (ez := Z.min ex ey).
    destruct (shl_align_spec mx ex ez) as [_ HX].
    destruct (shl_align_spec my ey ez) as [_ HY].
    set (X := fst (shl_align mx ex ez)) in *.
    set (Y := fst (shl_align my ey ez)) in *.
    change (Zpos X + Zpos Y) with (Zpos (X + Y)).
    cbn [binary_normalize]. unfold binary_round.
    destruct (shl_align_spec (X + Y) ez
                (fexp prec emax (Zpos (digits2_pos (X + Y)) + ez))) as [He0 Hmz].
    destruct (shl_align (X + Y) ez _) as [mz e0]. cbn [fst snd] in He0, Hmz.
    rewrite <- He0 in Hmz.
    assert (He0' : -1074 <= e0 <= ez) by (rewrite fexp_eq in He0; lia).
    apply binary_round_aux_lower_bound; [exact Hcx|lia|].
    rewrite Hmz, Pos2Z.inj_add, HX.
    replace (Z.min ex ez) with ez by lia.
    replace (ex - e0) with ((ex - ez) + (ez - e0)) by lia.
    rewrite Z.pow_add_r by lia.
    assert (0 < 2 ^ (ez - e0)) by (apply Z.pow_pos_nonneg; lia).
    assert (0 < 2 ^ (ex - ez)) by (apply Z.pow_pos_nonneg; lia).
    nia.
Qed.

(** ** Results that are not below zero *)

Lemma binary_round_aux_nonneg m e l :
  0 <= m -> SFnonneg (binary_round_aux prec emax false m e l) = true.
Proof.
  intros Hm. unfold binary_round_aux.
  destruct (shr_fexp_spec m e l Hm) as [Hs1 _].
  destruct (shr_fexp prec emax m e l) as [mrs1 e1]. cbn [fst] in Hs1.
  assert (H1 : 0 <= shr_m mrs1)
    by (rewrite Hs1; apply Z.div_pos; [lia|apply Z.pow_pos_nonneg; lia]).
  pose proof (round_nearest_even_ge (shr_m mrs1) (loc_of_shr_record mrs1)) as Hr.
  set (m2 := round_nearest_even (shr_m mrs1) (loc_of_shr_record mrs1)) in *.
  destruct (shr_fexp_spec m2 e1 loc_Exact) as [Hs2 _]; [lia|].
  destruct (shr_fexp prec emax m2 e1 loc_Exact) as [mrs2 e2]. cbn [fst] in Hs2.
  assert (H2 : 0 <= shr_m mrs2)
    by (rewrite Hs2; apply Z.div_pos; [lia|apply Z.pow_pos_nonneg; lia]).
  destruct (shr_m mrs2) as [|p|p]; [reflexivity| |lia].
  destruct (e2 <=? emax - prec); reflexivity.
Qed.

Lemma binary_normalize_nonneg m e :
  0 <= m -> SFnonneg (binary_normalize prec emax m e false) = true.
Proof.
  destruct m as [|p|p]; intros Hm; [reflexivity| |lia].
  cbn [binary_normalize]. unfold binary_round.
  destruct (shl_align p e _) as [mz ez].
  apply binary_round_aux_nonneg. lia.
Qed.

Lemma SFadd_nonneg x y :
  SFnonneg x = true -> SFnonneg y = true -> SFnonneg (SF64add x y) = true.
Proof.
  destruct x as [sx|sx| |sx mx ex], y as [sy|sy| |sy my ey];
    cbn [SFnonneg negb]; intros Hx Hy; try discriminate;
    repeat match goal with
    | H : negb ?b = true |- _ => apply negb_true_iff in H; subst b
    end;
    try (destruct sx; destruct sy; reflexivity);
    try reflexivity.
  unfold SF64add, SFadd. cbn [cond_Zopp].
  apply binary_normalize_nonneg. lia.
Qed.

Lemma SFmul_finite_nonneg m e y :
  SFnonneg y = true ->
  SFnonneg (SF64mul (S754_finite false m e) y) = true.
Proof.
  destruct y as [sy|sy| |sy my ey]; cbn [SFnonneg negb]; intros Hy;
    try discriminate;
    repeat match goal with
    | H : negb ?b = true |- _ => apply negb_true_iff in H; subst b
    end; try reflexivity.
  unfold SF64mul, SFmul. cbn [xorb].
  apply binary_round_aux_nonneg. lia.
Qed.

Lemma SFmul_self_nonneg x :
  SFnonneg x = true -> SFnonneg (SF64mul x x) = true.
Proof.
  destruct x as [sx|sx| |sx mx ex]; intros Hx.
  - reflexivity.
  - cbn in Hx. apply negb_true_iff in Hx. subst sx. reflexivity.
  - discriminate.
  - cbn [SFnonneg] in Hx. apply negb_true_iff in Hx. subst sx.
    apply SFmul_finite_nonneg. reflexivity.
Qed.

(** [x * (x + 1)], the product in the pairing. *)
Lemma SFmul_succ_nonneg x :
  SFnonneg x = true ->
  SFnonneg (SF64mul x (SF64add x (Prim2SF 1))) = true.
Proof.
  destruct x as [sx|sx| |sx mx ex]; intros Hx.
  - destruct sx; reflexivity.
  - cbn in Hx. apply negb_true_iff in Hx. subst sx. reflexivity.
  - discriminate.
  - cbn [SFnonneg] in Hx. apply negb_true_iff in Hx. subst sx.
    apply SFmul_finite_nonneg, SFadd_nonneg; reflexivity.
Qed.

Lemma SFdiv_nonneg x my ey :
  SFnonneg x = true ->
  SFnonneg (SF64div x (S754_finite false my ey)) = true.
Proof.
  destruct x as [sx|sx| |sx mx ex]; intros Hx.
  - reflexivity.
  - cbn in Hx. apply negb_true_iff in Hx. subst sx. reflexivity.
  - discriminate.
  - cbn [SFnonneg] in Hx. apply negb_true_iff in Hx. subst sx.
    unfold SF64div, SFdiv, SFdiv_core_binary. cbn [xorb].
    match goal with
    | |- context [Z.div_eucl ?a ?b] =>
        assert (Hq : 0 <= fst (Z.div_eucl a b));
        [change (fst (Z.div_eucl a b)) with (a / b); apply Z.div_pos; [|lia]
        |destruct (Z.div_eucl a b) as [q r]; cbn [fst] in Hq;
         apply binary_round_aux_nonneg, Hq]
    end.
    match goal with
    | |- 0 <= match ?s with _ => _ end => destruct s
    end; try lia.
    apply Z.shiftl_nonneg. lia.
Qed.

Section NonNegative.
Local Open Scope float_scope.

Lemma nonneg_to_double z : nonneg (to_double z) = true.
Proof.
  unfold nonneg. rewrite to_double_SF.
  apply binary_normalize_nonneg, Uint63.to_Z_bounded.
Qed.

Lemma nonneg_add x y :
  nonneg x = true -> nonneg y = true -> nonneg (x + y) = true.
Proof. unfold nonneg. rewrite add_spec. apply SFadd_nonneg. Qed.

Lemma nonneg_square x : nonneg x = true -> nonneg (x * x) = true.
Proof. unfold nonneg. rewrite mul_spec. apply SFmul_self_nonneg. Qed.

Lemma nonneg_mul_succ x : nonneg x = true -> nonneg (x * (x + 1)) = true.
Proof. unfold nonneg. rewrite mul_spec, add_spec. apply SFmul_succ_nonneg. Qed.

Lemma nonneg_div x y my ey :
  Prim2SF y = S754_finite false my ey ->
  nonneg x = true -> nonneg (x / y) = true.
Proof. unfold nonneg. intros Hy. rewrite div_spec, Hy. apply SFdiv_nonneg. Qed.

(** A score does not decrease when a score is added to it. *)
Lemma leb_add_nonneg x s :
  nonneg x = true -> nonneg s = true -> (x <=? x + s) = true.
Proof.
  unfold nonneg. rewrite FloatAxioms.leb_spec, add_spec.
  apply SFadd_ge; apply Prim2SF_valid.
Qed.

End NonNegative.

Lemma SFleb_refl_nonneg x : SFnonneg x = true -> SFleb x x = true.
Proof.
  destruct x as [s|s| |s m e]; cbn [SFnonneg]; intros Hx; try discriminate.
  - reflexivity.
  - destruct s; reflexivity.
  - apply negb_true_iff in Hx. subst s. apply SFcompare_refl_finite.
Qed.

Lemma leb_refl_nonneg x : nonneg x = true -> (x <=? x)%float = true.
Proof. unfold nonneg. rewrite FloatAxioms.leb_spec. apply SFleb_refl_nonneg. Qed.

(** ** Scores are not below zero *)

Lemma nonneg_accumulate weights :
  forall x, nonneg x = true -> nonneg (accumulate weights x) = true.
Proof.
  induction weights as [|w ws IH]; intros x Hx; [exact Hx|].
  apply IH, nonneg_add; [exact Hx|apply nonneg_to_double].
Qed.

Lemma recent_weights_of_length absorbed w :
  recent_weights_of absorbed = Some w -> (length w <= 3)%nat.
Proof.
  unfold recent_weights_of.
  destruct (Z.ltb_spec (Z.of_nat (length absorbed)) 3) as [Hlt|Hge].
  - intros [= <-]. lia.
  - destruct (at_ absorbed _); [|discriminate].
    destruct (at_ absorbed _); [|discriminate].
    destruct (at_ absorbed _); [|discriminate].
    intros [= <-]. cbn. lia.
Qed.

Lemma GreenBox_calcScore_nonneg absorbed score :
  absorbed <> [] ->
  GreenBox_calcScore absorbed = Some score -> nonneg score = true.
Proof.
  intros Hne. unfold GreenBox_calcScore.
  destruct (recent_weights_of_nonempty absorbed Hne) as (a & w & Hw).
  rewrite Hw. apply recent_weights_of_length in Hw. cbn [bind].
  intros [= <-].
  apply nonneg_square.
  assert (Hacc : nonneg (accumulate (a :: w) 0) = true)
    by (apply nonneg_accumulate; reflexivity).
  destruct w as [|b [|c [|d w]]]; [| | |cbn in Hw; lia];
    (eapply nonneg_div; [vm_compute; reflexivity|exact Hacc]).
Qed.

Lemma pairing_nonneg min max : nonneg (pairing min max) = true.
Proof.
  unfold pairing. apply nonneg_add; [|apply nonneg_to_double].
  eapply nonneg_div; [vm_compute; reflexivity|].
  apply nonneg_mul_succ, nonneg_to_double.
Qed.

Lemma calcScore_nonneg b score :
  (kind b = GreenBox -> absorbed_weights b <> []) ->
  calcScore b = Some score -> nonneg score = true.
Proof.
  unfold calcScore. intros Hne. destruct (kind b).
  - intros [= <-]. reflexivity.
  - apply GreenBox_calcScore_nonneg. apply Hne. reflexivity.
  - unfold BlueBox_calcScore.
    destruct (min_element _); [|discriminate].
    destruct (max_element _); [|discriminate].
    intros [= <-]. apply pairing_nonneg.
Qed.

Lemma play_iter_scores g weight g' :
  Game_invariant g -> scores_nonneg g -> play_iter g weight = Some g' ->
  scores_nonneg g' /\
  (score_ (player_A g) <=? score_ (player_A g'))%float = true /\
  (score_ (player_B g) <=? score_ (player_B g'))%float = true.
Proof.
  intros Hinv [HA HB] Hstep.
  destruct (play_iter_spec g weight Hinv)
    as (k & box & score & _ & _ & Hscore & Heq).
  apply calcScore_nonneg in Hscore; [|intros _; apply boxAbsorb_nonempty].
  rewrite Heq in Hstep. injection Hstep as <-.
  destruct (player_of_count (count g)); cbn [player_A player_B score_];
    unfold scores_nonneg; cbn [player_A player_B score_];
    auto using nonneg_add, leb_add_nonneg, leb_refl_nonneg.
Qed.

Lemma Reachable_scores_nonneg g : Reachable g -> scores_nonneg g.
Proof.
  induction 1 as [|g g' weight Hg IH _ Hstep].
  - split; reflexivity.
  - apply (play_iter_scores g weight g'); auto using Reachable_invariant.
Qed.

(** C8: on inputs of [uint32_t], a turn never decreases the score of a
    player: the score of the player who moves grows by a score that is not
    below zero, and the score of the other player stays. *)
Theorem scores_non_decreasing (g g' : Game) (weight : Z) :
  Reachable g -> is_uint32 weight -> play_iter g weight = Some g' ->
  (score_ (player_A g) <=? score_ (player_A g'))%float = true /\
  (score_ (player_B g) <=? score_ (player_B g'))%float = true.
Proof.
  intros Hg _ Hstep.
  apply (play_iter_scores g weight g');
    auto using Reachable_invariant, Reachable_scores_nonneg.
Qed.

Lemma scores_non_decreasing_witness :
  (score_ (player_A new_Game) <=? score_ (player_A game_after_5))%float = true /\
  (score_ (player_B new_Game) <=? score_ (player_B game_after_5))%float = true.
Proof.
  apply (scores_non_decreasing new_Game game_after_5 5).
  - exact Reachable_new.
  - unfold is_uint32, UINT32_MODULUS. lia.
  - vm_compute. reflexivity.
Defined.

(** ** Exact sums of promoted integers *)

Lemma Zdigits2_unique m d :
  2 ^ (d - 1) <= m < 2 ^ d -> 0 < d -> Zdigits2 m = d.
Proof.
  intros [Hlo Hhi] Hd.
  assert (Hm : 0 < m).
  { apply Z.lt_le_trans with (2 ^ (d - 1)); [apply Z.pow_pos_nonneg; lia|exact Hlo]. }
  pose proof (Zdigits2_bounds m Hm) as [Hlo' Hhi'].
  assert (0 < Zdigits2 m) by (destruct m; try lia; reflexivity).
  destruct (Z.lt_trichotomy (Zdigits2 m) d) as [Hlt|[Heq|Hgt]]; [|exact Heq|].
  - assert (2 ^ Zdigits2 m <= 2 ^ (d - 1)) by (apply Z.pow_le_mono_r; lia). lia.
  - assert (2 ^ d <= 2 ^ (Zdigits2 m - 1)) by (apply Z.pow_le_mono_r; lia). lia.
Qed.

Lemma digits2_pos_le_53 n : Zpos n < 2 ^ 53 -> Zpos (digits2_pos n) <= 53.
Proof.
  intros Hn. pose proof (digits2_pos_bounds n) as [Hlo _].
  destruct (Z.le_gt_cases (Zpos (digits2_pos n)) 53) as [H|H]; [exact H|].
  assert (2 ^ 53 <= 2 ^ (Zpos (digits2_pos n) - 1)) by (apply Z.pow_le_mono_r; lia).
  lia.
Qed.

Lemma SFinteger_bounded n :
  Zpos n < 2 ^ 53 ->
  let d := Zpos (digits2_pos n) in
  exists mz, Zpos mz = Zpos n * 2 ^ (53 - d) /\
             Zpos (digits2_pos mz) = 53 /\
             bounded prec emax mz (d - 53) = true.
Proof.
  intros Hn d. pose proof (digits2_pos_le_53 n Hn) as Hd. fold d in Hd.
  pose proof (digits2_pos_bounds n) as [Hlo Hhi]. fold d in Hlo, Hhi.
  assert (Hpow : 0 < 2 ^ (53 - d)) by (apply Z.pow_pos_nonneg; lia).
  assert (Hpos : 0 < Zpos n * 2 ^ (53 - d)) by lia.
  exists (Z.to_pos (Zpos n * 2 ^ (53 - d))).
  rewrite Z2Pos.id by exact Hpos. split; [reflexivity|].
  assert (Hdig : Zpos (digits2_pos (Z.to_pos (Zpos n * 2 ^ (53 - d)))) = 53).
  { change (Zpos (digits2_pos ?p)) with (Zdigits2 (Zpos p)).
    rewrite Z2Pos.id by exact Hpos.
    apply Zdigits2_unique; [|lia]. split.
    - replace (53 - 1) with ((d - 1) + (53 - d)) by lia.
      rewrite Z.pow_add_r by lia. nia.
    - replace 53 with (d + (53 - d)) at 2 by lia.
      rewrite Z.pow_add_r by lia. nia. }
  split; [exact Hdig|].
  unfold bounded. apply andb_true_iff. split.
  - apply canonical_iff. rewrite Hdig. lia.
  - apply Z.leb_le. change (emax - prec) with 971. lia.
Qed.

Lemma shr_1_exact m :
  0 <= m ->
  shr_1 {| shr_m := m * 2; shr_r := false; shr_s := false |}
  = {| shr_m := m; shr_r := false; shr_s := false |}.
Proof.
  intros Hm. destruct m as [|p|p]; [reflexivity| |lia].
  replace (Zpos p * 2) with (Zpos p~0) by lia. reflexivity.
Qed.

Lemma iter_shr_1_exact (q : positive) :
  forall m, 0 <= m ->
    iter_pos shr_1 q {| shr_m := m * 2 ^ Zpos q; shr_r := false; shr_s := false |}
    = {| shr_m := m; shr_r := false; shr_s := false |}.
Proof.
  induction q as [q IH|q IH|]; intros m Hm; cbn [iter_pos].
  - assert (Hp : 0 < 2 ^ Zpos q) by (apply Z.pow_pos_nonneg; lia).
    replace (m * 2 ^ Zpos q~1) with (m * 2 ^ Zpos q * 2 ^ Zpos q * 2).
    + rewrite shr_1_exact by nia. rewrite IH by nia. apply IH, Hm.
    + change (Zpos q~1) with (2 * Zpos q + 1).
      replace (2 * Zpos q + 1) with (Zpos q + Zpos q + 1) by lia.
      rewrite !Z.pow_add_r by lia. change (2 ^ 1) with 2. ring.
  - assert (Hp : 0 < 2 ^ Zpos q) by (apply Z.pow_pos_nonneg; lia).
    replace (m * 2 ^ Zpos q~0) with (m * 2 ^ Zpos q * 2 ^ Zpos q).
    + rewrite IH by nia. apply IH, Hm.
    + change (Zpos q~0) with (2 * Zpos q).
      replace (2 * Zpos q) with (Zpos q + Zpos q) by lia.
      rewrite !Z.pow_add_r by lia. ring.
  - change (2 ^ 1) with 2. apply shr_1_exact, Hm.
Qed.

(** Rounding an integer below 2^53, given with [k] more binary zeros at
    the exponent [- k], yields its canonical form. *)
Lemma binary_round_scaled n p k :
  Zpos n < 2 ^ 53 -> 0 <= k -> Zpos p = Zpos n * 2 ^ k ->
  binary_round prec emax false p (- k) = SFinteger n.
Proof.
  intros Hn Hk Hp.
  destruct (SFinteger_bounded n Hn) as (mz & Hmz & Hdig & Hb). cbv zeta in *.
  pose proof (digits2_pos_le_53 n Hn) as Hd.
  pose proof (digits2_pos_bounds n) as [Hlo Hhi].
  set (d := Zpos (digits2_pos n)) in *.
  assert (Hd0 : 0 < d) by (unfold d; lia).
  assert (Hint : SFinteger n = S754_finite false mz (d - 53)).
  { unfold SFinteger. fold d. rewrite <- Hmz. reflexivity. }
  rewrite Hint.
  assert (Hpk : 0 < 2 ^ k) by (apply Z.pow_pos_nonneg; lia).
  assert (Hdp : Zpos (digits2_pos p) = d + k).
  { change (Zpos (digits2_pos p)) with (Zdigits2 (Zpos p)).
    apply Zdigits2_unique; [|lia]. rewrite Hp. split.
    - replace (d + k - 1) with ((d - 1) + k) by lia.
      rewrite Z.pow_add_r by lia. nia.
    - rewrite Z.pow_add_r by lia. nia. }
  unfold binary_round. rewrite Hdp, fexp_eq.
  replace (Z.max (d + k + - k - 53) (-1074)) with (d - 53) by lia.
  destruct (shl_align_spec p (- k) (d - 53)) as [He0 Hm0].
  destruct (shl_align p (- k) (d - 53)) as [m0 e0]. cbn [fst snd] in He0, Hm0.
  destruct (Z.le_gt_cases (d - 53) (- k)) as [Hle|Hgt].
  - rewrite Z.min_r in He0, Hm0 by lia. subst e0.
    assert (m0 = mz).
    { apply Pos2Z.inj. rewrite Hm0, Hmz, Hp.
      replace (53 - d) with (k + (- k - (d - 53))) by lia.
      rewrite Z.pow_add_r by lia. ring. }
    subst m0. apply binary_round_aux_canonical, Hb.
  - rewrite Z.min_l in He0, Hm0 by lia. subst e0.
    rewrite Z.sub_diag in Hm0. change (2 ^ 0) with 1 in Hm0.
    assert (m0 = p) by lia. subst m0.
    pose proof Hb as [Hc He]%andb_true_iff.
    unfold binary_round_aux.
    assert (Hshift : shr_fexp prec emax (Zpos p) (- k) loc_Exact
                     = ({| shr_m := Zpos mz; shr_r := false; shr_s := false |},
                        d - 53)).
    { unfold shr_fexp. cbn [Zdigits2]. rewrite Hdp, fexp_eq.
      replace (Z.max (d + k + - k - 53) (-1074) - - k) with (d - 53 + k) by lia.
      destruct (d - 53 + k) as [|q|q] eqn:Hq; try lia.
      cbn [shr shr_record_of_loc]. f_equal; [|lia].
      replace (Zpos p) with (Zpos mz * 2 ^ Zpos q).
      - apply iter_shr_1_exact. lia.
      - rewrite Hp, Hmz, <- Hq, <- Z.mul_assoc, <- Z.pow_add_r by lia.
        f_equal. f_equal. lia. }
    rewrite Hshift. cbn [shr_m loc_of_shr_record round_nearest_even].
    rewrite shr_fexp_canonical by exact Hc. cbn [shr_m].
    rewrite He. reflexivity.
Qed.

Lemma binary_round_scaled_at n p e :
  Zpos n < 2 ^ 53 -> e <= 0 -> Zpos p = Zpos n * 2 ^ (- e) ->
  binary_round prec emax false p e = SFinteger n.
Proof.
  intros Hn He Hp. rewrite <- (Z.opp_involutive e).
  apply binary_round_scaled; [exact Hn|lia|exact Hp].
Qed.

Lemma SFadd_SFinteger a b :
  Zpos a + Zpos b < 2 ^ 53 ->
  SF64add (SFinteger a) (SFinteger b) = SFinteger (a + b).
Proof.
  intros Hab.
  assert (Ha : Zpos a < 2 ^ 53) by lia.
  assert (Hb : Zpos b < 2 ^ 53) by lia.
  destruct (SFinteger_bounded a Ha) as (ma & Hma & _ & _).
  destruct (SFinteger_bounded b Hb) as (mb & Hmb & _ & _).
  cbv zeta in *.
  pose proof (digits2_pos_le_53 a Ha) as Hda.
  pose proof (digits2_pos_le_53 b Hb) as Hdb.
  unfold SFinteger at 1 2.
  rewrite <- Hma, <- Hmb, !Pos2Z.id.
  set (da := Zpos (digits2_pos a)) in *.
  set (db := Zpos (digits2_pos b)) in *.
  assert (0 < da /\ 0 < db) as [Hda0 Hdb0] by (unfold da, db; lia).
  unfold SF64add, SFadd. cbn [cond_Zopp].
  set (ez := Z.min (da - 53) (db - 53)).
  destruct (shl_align_spec ma (da - 53) ez) as [_ HX].
  destruct (shl_align_spec mb (db - 53) ez) as [_ HY].
  set (X := fst (shl_align ma (da - 53) ez)) in *.
  set (Y := fst (shl_align mb (db - 53) ez)) in *.
  change (Zpos X + Zpos Y) with (Zpos (X + Y)).
  cbn [binary_normalize].
  apply binary_round_scaled_at; [rewrite Pos2Z.inj_add; exact Hab|lia|].
  rewrite !Pos2Z.inj_add, HX, HY, Hma, Hmb.
  replace (Z.min (da - 53) ez) with ez by lia.
  replace (Z.min (db - 53) ez) with ez by lia.
  rewrite <- !Z.mul_assoc, <- !Z.pow_add_r by lia.
  replace (53 - da + (da - 53 - ez)) with (- ez) by lia.
  replace (53 - db + (db - 53 - ez)) with (- ez) by lia.
  ring.
Qed.

Lemma to_double_SFinteger n :
  Zpos n < 2 ^ 53 -> Prim2SF (to_double (Zpos n)) = SFinteger n.
Proof.
  intros Hn. rewrite to_double_SF.
  rewrite Uint63.of_Z_spec, Z.mod_small
    by (split; [lia|apply Z.lt_trans with (2 ^ 53); [exact Hn|reflexivity]]).
  cbn [binary_normalize].
  apply (binary_round_scaled_at n n 0); [exact Hn|lia|].
  change (2 ^ (- 0)) with 1. lia.
Qed.

(** The sum of two promoted integers is the promoted sum as long as the
    sum stays below 2^53. *)
Lemma to_double_add a b :
  0 <= a -> 0 <= b -> a + b < 2 ^ 53 ->
  (to_double a + to_double b)%float = to_double (a + b).
Proof.
  intros Ha Hb Hab.
  destruct a as [|a|a]; [apply zero_plus_to_double| |lia].
  destruct b as [|b|b]; [|  |lia].
  - rewrite Z.add_0_r. apply Prim2SF_inj. rewrite add_spec.
    rewrite to_double_SFinteger by lia.
    change (Prim2SF (to_double 0)) with (S754_zero false). reflexivity.
  - apply Prim2SF_inj. rewrite add_spec.
    change (Zpos a + Zpos b) with (Zpos (a + b)).
    rewrite !to_double_SFinteger by (rewrite ?Pos2Z.inj_add; lia).
    apply SFadd_SFinteger. exact Hab.
Qed.

Lemma pairing_is_cantor_pairing m M :
  0 <= m -> 0 <= M -> m + M < UINT32_MODULUS ->
  pairing m M = cantor_pairing m M.
Proof.
  intros Hm HM Hsum. unfold pairing, cantor_pairing, wrap32.
  unfold UINT32_MODULUS in *.
  rewrite Z.mod_small by lia.
  rewrite (to_double_add m M Hm HM)
    by (apply Z.lt_trans with 4294967296; [exact Hsum|reflexivity]).
  reflexivity.
Qed.

(** Without a carry out of 32 bits a blue box scores Cantor's pairing of
    its least and its greatest absorbed weight. *)
Lemma BlueBox_calcScore_cantor history m M :
  In m history -> In M history ->
  (forall x, In x history -> m <= x <= M) ->
  0 <= m -> m + M < UINT32_MODULUS ->
  BlueBox_calcScore history = Some (cantor_pairing m M).
Proof.
  intros Hm HM Hall Hm0 Hsum.
  rewrite (BlueBox_calcScore_extremes history m M Hm HM Hall).
  rewrite pairing_is_cantor_pairing; [reflexivity|lia| |exact Hsum].
  specialize (Hall m Hm). lia.
Qed.

(** A box that starts at 0.0 holds the exact sum of its history as long as
    that sum is below 2^53. *)
Lemma accumulate_exact weights :
  forall a, 0 <= a -> Forall (fun w => 0 <= w) weights ->
    a + fold_right Z.add 0 weights < 2 ^ 53 ->
    accumulate weights (to_double a)
    = to_double (a + fold_right Z.add 0 weights).
Proof.
  induction weights as [|w ws IH]; intros a Ha Hall Hsum; cbn [fold_right] in *.
  - rewrite Z.add_0_r. reflexivity.
  - inversion Hall as [|? ? Hw Hws]; subst.
    assert (0 <= fold_right Z.add 0 ws).
    { clear -Hws. induction Hws; cbn; lia. }
    change (accumulate (w :: ws) (to_double a))
      with (accumulate ws (to_double a + to_double w)%float).
    rewrite to_double_add by lia.
    rewrite IH by (try assumption; lia). f_equal. lia.
Qed.

(** * Further properties of the code *)

(** ** More of the order of binary64 *)
Lemma SFleb_trans (a b c : spec_float) :
  SFleb a b = true -> SFleb b c = true -> SFleb a c = true.
Proof.
  unfold SFleb.
  destruct a as [sa|sa| |sa ma ea], b as [sb|sb| |sb mb eb],
           c as [sc|sc| |sc mc ec];
    SFcompare_cases.
Qed.

Lemma SFltb_false_SFleb (a b : spec_float) :
  SFnonneg a = true -> SFnonneg b = true ->
  SFltb a b = false -> SFleb b a = true.
Proof.
  unfold SFleb, SFltb.
  destruct a as [sa|sa| |sa ma ea], b as [sb|sb| |sb mb eb];
    SFcompare_cases.
Qed.

Lemma SFleb_false_SFltb (a b : spec_float) :
  SFnonneg a = true -> SFnonneg b = true ->
  SFleb a b = false -> SFltb b a = true.
Proof.
  unfold SFleb, SFltb.
  destruct a as [sa|sa| |sa ma ea], b as [sb|sb| |sb mb eb];
    SFcompare_cases.
Qed.

Lemma leb_trans (a b c : float) :
  (a <=? b)%float = true -> (b <=? c)%float = true -> (a <=? c)%float = true.
Proof. rewrite !FloatAxioms.leb_spec. apply SFleb_trans. Qed.

Lemma ltb_false_leb (a b : float) :
  nonneg a = true -> nonneg b = true ->
  (a <? b)%float = false -> (b <=? a)%float = true.
Proof.
  unfold nonneg. rewrite FloatAxioms.leb_spec, FloatAxioms.ltb_spec.
  apply SFltb_false_SFleb.
Qed.

Lemma leb_false_ltb (a b : float) :
  nonneg a = true -> nonneg b = true ->
  (a <=? b)%float = false -> (b <? a)%float = true.
Proof.
  unfold nonneg. rewrite FloatAxioms.leb_spec, FloatAxioms.ltb_spec.
  apply SFleb_false_SFltb.
Qed.

(** X1: [Box::operator<] is a strict order on boxes of any weights, a NaN
    included: no box is below itself, two boxes are never below each other,
    and the relation is transitive. *)
Theorem Box_lt_strict_order :
  (forall a, Box_lt a a = false) /\
  (forall a b, Box_lt a b = true -> Box_lt b a = false) /\
  (forall a b c, Box_lt a b = true -> Box_lt b c = true -> Box_lt a c = true).
Proof.
  unfold Box_lt. split; [|split].
  - intros a. apply ltb_irrefl.
  - intros a b Hab. destruct (weight_ b <? weight_ a)%float eqn:E; [|reflexivity].
    apply ltb_not_leb in Hab. apply ltb_leb in E. congruence.
  - intros a b c. apply ltb_trans.
Qed.

(** ** The selector on every vector *)
Lemma wrap16_range z : 0 <= z -> 0 <= wrap16 z <= z /\ wrap16 z < 65536.
Proof.
  intros Hz. unfold wrap16, UINT16_MODULUS.
  pose proof (Z.mod_pos_bound z 65536 ltac:(lia)).
  pose proof (Z.mod_le z 65536 Hz ltac:(lia)). lia.
Qed.

Lemma findSmallestBox_loop_safe rest :
  forall boxes pre small_idx,
    boxes = pre ++ rest ->
    0 <= small_idx < Z.of_nat (length pre) -> small_idx < 65536 ->
    exists idx,
      findSmallestBox_loop boxes rest (Z.of_nat (length pre)) small_idx = Some idx /\
      0 <= idx < Z.of_nat (length boxes) /\ idx < 65536.
Proof.
  induction rest as [|bi rest IH]; intros boxes pre small_idx Hsplit Hs Hs16.
  - exists small_idx. subst boxes. rewrite app_nil_r. auto.
  - cbn [findSmallestBox_loop].
    destruct (nth_error boxes (Z.to_nat small_idx)) as [bs|] eqn:Hbs.
    2:{ apply nth_error_None in Hbs. subst boxes. rewrite length_app in Hbs. lia. }
    cbn [bind].
    pose proof (wrap16_range (Z.of_nat (length pre)) ltac:(lia)) as [Hw Hw16].
    destruct (IH boxes (pre ++ [bi])
                (if Box_lt bi bs then wrap16 (Z.of_nat (length pre)) else small_idx))
      as (idx & Hrun & Hidx).
    + rewrite <- app_assoc. exact Hsplit.
    + rewrite length_app. cbn [length]. destruct (Box_lt bi bs); lia.
    + destruct (Box_lt bi bs); lia.
    + exists idx. split; [|exact Hidx]. rewrite <- Hrun.
      rewrite length_app. cbn [length]. f_equal. lia.
Qed.

(** X2: [findSmallestBox] is defined on every vector, however long: its
    answer is below 65536, and on a non-empty vector it is an index of the
    vector, so that the box it names exists. *)
Theorem findSmallestBox_in_bounds (boxes : list Box) :
  exists idx, findSmallestBox boxes = Some idx /\
              0 <= idx < 65536 /\
              (boxes <> [] -> idx < Z.of_nat (length boxes)).
Proof.
  destruct boxes as [|b0 rest].
  - exists 0. repeat split; try lia. congruence.
  - assert (H : exists idx,
               findSmallestBox_loop (b0 :: rest) rest (Z.of_nat (length [b0])) 0
               = Some idx /\
               0 <= idx < Z.of_nat (length (b0 :: rest)) /\ idx < 65536).
    { apply findSmallestBox_loop_safe; [reflexivity|cbn; lia|lia]. }
    destruct H as (idx & Hrun & Hidx & H16).
    exists idx. split; [exact Hrun|]. split; [lia|]. intros _. lia.
Qed.

Lemma nth_error_weight (l1 l2 : list Box) i :
  map weight_ l1 = map weight_ l2 ->
  option_map weight_ (nth_error l1 i) = option_map weight_ (nth_error l2 i).
Proof. intros H. rewrite <- !nth_error_map, H. reflexivity. Qed.

Lemma findSmallestBox_loop_weights rest1 :
  forall rest2 boxes1 boxes2 idx small_idx,
    map weight_ rest1 = map weight_ rest2 ->
    map weight_ boxes1 = map weight_ boxes2 ->
    findSmallestBox_loop boxes1 rest1 idx small_idx
    = findSmallestBox_loop boxes2 rest2 idx small_idx.
Proof.
  induction rest1 as [|b1 rest1 IH]; intros [|b2 rest2] boxes1 boxes2 idx small_idx Hr Hb;
    try discriminate; [reflexivity|].
  cbn [map] in Hr. injection Hr as Hw Hr.
  cbn [findSmallestBox_loop].
  pose proof (nth_error_weight boxes1 boxes2 (Z.to_nat small_idx) Hb) as Hn.
  destruct (nth_error boxes1 (Z.to_nat small_idx)) as [s1|],
           (nth_error boxes2 (Z.to_nat small_idx)) as [s2|];
    cbn in Hn; try discriminate; [|reflexivity].
  injection Hn as Hs. cbn [bind]. unfold Box_lt. rewrite Hw, Hs.
  apply IH; assumption.
Qed.

(** X3: [findSmallestBox] reads the weights only: two vectors whose boxes
    have the same weights, place by place, get the same answer, whatever
    the types and the histories of the boxes. *)
Theorem findSmallestBox_reads_weights (boxes1 boxes2 : list Box) :
  map weight_ boxes1 = map weight_ boxes2 ->
  findSmallestBox boxes1 = findSmallestBox boxes2.
Proof.
  intros H. unfold findSmallestBox.
  apply findSmallestBox_loop_weights; [|exact H].
  destruct boxes1, boxes2; try discriminate; [reflexivity|].
  cbn in *. congruence.
Qed.

Lemma nth_error_store_box_same bs : forall k b b',
  nth_error bs k = Some b -> nth_error (store_box bs k b') k = Some b'.
Proof.
  induction bs as [|hd tl IH]; intros [|k] b b' H; cbn in *; try discriminate; eauto.
Qed.

Lemma nth_error_store_box_other bs : forall k j b',
  j <> k -> nth_error (store_box bs k b') j = nth_error bs j.
Proof.
  induction bs as [|hd tl IH]; intros [|k] [|j] b' H; cbn; try reflexivity;
    try congruence.
  apply IH. congruence.
Qed.

Lemma all_absorbed_store_box bs : forall k box weight,
  nth_error bs k = Some box ->
  Permutation (all_absorbed (store_box bs k (boxAbsorb weight box)))
              (weight :: all_absorbed bs).
Proof.
  unfold all_absorbed.
  induction bs as [|hd tl IH]; intros [|k] box weight H; cbn in *; try discriminate.
  - injection H as ->. rewrite <- app_assoc. cbn.
    symmetry. apply Permutation_middle.
  - rewrite (IH k box weight H). symmetry. apply Permutation_middle.
Qed.

(** A turn of the game, seen from the boxes and the two players. *)
Lemma play_iter_frame g weight g' :
  Game_invariant g -> play_iter g weight = Some g' ->
  exists k box score,
    findSmallestBox (boxes g) = Some (Z.of_nat k) /\
    nth_error (boxes g) k = Some box /\
    calcScore (boxAbsorb weight box) = Some score /\
    boxes g' = store_box (boxes g) k (boxAbsorb weight box) /\
    count g' = next_count (count g) /\
    match player_of_count (count g) with
    | PlayerA => score_ (player_A g') = (score_ (player_A g) + score)%float /\
                 player_B g' = player_B g
    | PlayerB => score_ (player_B g') = (score_ (player_B g) + score)%float /\
                 player_A g' = player_A g
    end.
Proof.
  intros Hinv Hstep.
  destruct (play_iter_spec g weight Hinv) as (k & box & score & Hrun & Hbox & Hscore & Heq).
  rewrite Heq in Hstep. injection Hstep as <-.
  exists k, box, score. repeat split; try assumption;
    destruct (player_of_count (count g)); cbn; auto.
Qed.

Lemma play_loop_invariant (P : Game -> Prop) :
  (forall g weight g', Game_invariant g -> P g ->
                       play_iter g weight = Some g' -> P g') ->
  forall input_weights g g',
    Game_invariant g -> P g -> play_loop input_weights g = Some g' -> P g'.
Proof.
  intros Hstep input_weights.
  induction input_weights as [|w ws IH]; intros g g' Hinv HP; cbn [play_loop].
  - intros [= <-]. exact HP.
  - destruct (play_iter g w) as [g1|] eqn:H1; [|discriminate]. cbn [bind].
    apply IH; eauto using play_iter_invariant.
Qed.

Lemma play_loop_absorbed input_weights :
  forall g g', Game_invariant g -> play_loop input_weights g = Some g' ->
    Permutation (all_absorbed (boxes g')) (all_absorbed (boxes g) ++ input_weights).
Proof.
  induction input_weights as [|w ws IH]; intros g g' Hinv; cbn [play_loop].
  - intros [= <-]. rewrite app_nil_r. reflexivity.
  - destruct (play_iter g w) as [g1|] eqn:H1; [|discriminate]. cbn [bind].
    intros Hrun. rewrite (IH g1 g' (play_iter_invariant _ _ _ Hinv H1) Hrun).
    destruct (play_iter_frame g w g1 Hinv H1) as (k & box & _ & _ & Hbox & _ & -> & _).
    rewrite (all_absorbed_store_box _ _ _ w Hbox).
    cbn. apply Permutation_middle.
Qed.

(** X6: a game absorbs every input weight exactly once: the histories of
    the four boxes at the end of the loop hold the input weights, each as
    often as the input has it. *)
Theorem play_absorbs_each_weight_once (input_weights : list Z) :
  exists g, play_loop input_weights new_Game = Some g /\
            Permutation (all_absorbed (boxes g)) input_weights.
Proof.
  destruct (play_loop_total input_weights new_Game new_Game_invariant) as (g & Hrun & _).
  exists g. split; [exact Hrun|].
  exact (play_loop_absorbed input_weights new_Game g new_Game_invariant Hrun).
Qed.

(** X5: a turn of a game changes one box, the selected one, which absorbs
    the weight of the turn; every other box, the number of boxes and the
    record of one of the two players stay as they were. *)
Theorem turn_changes_one_box (g g' : Game) (weight : Z) :
  Reachable g -> play_iter g weight = Some g' ->
  exists k box,
    findSmallestBox (boxes g) = Some (Z.of_nat k) /\
    nth_error (boxes g) k = Some box /\
    nth_error (boxes g') k = Some (boxAbsorb weight box) /\
    (forall j, j <> k -> nth_error (boxes g') j = nth_error (boxes g) j) /\
    length (boxes g') = length (boxes g) /\
    (player_A g' = player_A g \/ player_B g' = player_B g).
Proof.
  intros Hinv%Reachable_invariant Hstep.
  destruct (play_iter_frame g weight g' Hinv Hstep)
    as (k & box & score & Hrun & Hbox & _ & Hboxes & _ & Hp).
  exists k, box. rewrite Hboxes.
  split; [exact Hrun|]. split; [exact Hbox|].
  split; [eapply nth_error_store_box_same; exact Hbox|].
  split; [intros j Hj; apply nth_error_store_box_other; exact Hj|].
  split; [apply store_box_length|].
  destruct (player_of_count (count g)); tauto.
Qed.

Lemma Forall2_kind l0 l :
  Forall2 box_invariant l0 l -> map kind l = map kind l0.
Proof.
  induction 1 as [|b0 b l0 l [Hk _] _ IH]; cbn; [reflexivity|].
  rewrite Hk, IH. reflexivity.
Qed.

(** X7: a game keeps its four boxes and their types: two green boxes
    followed by two blue ones, in every reachable state. *)
Theorem boxes_keep_their_kinds (g : Game) :
  Reachable g -> map kind (boxes g) = [GreenBox; GreenBox; BlueBox; BlueBox].
Proof.
  intros [H _]%Reachable_invariant. apply Forall2_kind in H. exact H.
Qed.

(** ** Weights of the boxes *)
Lemma initial_boxes_nonneg :
  Forall (fun b => nonneg (weight_ b) = true) initial_boxes.
Proof. repeat constructor. Qed.

Lemma Game_invariant_weights g :
  Game_invariant g -> Forall (fun b => nonneg (weight_ b) = true) (boxes g).
Proof.
  intros [H _]. pose proof initial_boxes_nonneg as H0.
  induction H as [|b0 b l0 l [_ Hw] _ IH]; [constructor|].
  inversion H0 as [|? ? Hb0 Hl0]; subst. constructor; [|apply IH, Hl0].
  rewrite Hw. apply nonneg_accumulate, Hb0.
Qed.

Lemma nth_error_Forall {A} (P : A -> Prop) l i x :
  Forall P l -> nth_error l i = Some x -> P x.
Proof.
  intros H Hx. rewrite Forall_forall in H. apply H.
  eapply nth_error_In. exact Hx.
Qed.

(** X8: [boxAbsorb] never makes a box lighter: on a box whose weight is a
    number not below zero, the weight after an absorption is again such a
    number and is not less than before. *)
Theorem boxAbsorb_not_lighter (b : Box) (weight : Z) :
  nonneg (weight_ b) = true ->
  (weight_ b <=? weight_ (boxAbsorb weight b))%float = true /\
  nonneg (weight_ (boxAbsorb weight b)) = true.
Proof.
  intros Hb. cbn [boxAbsorb weight_]. split.
  - apply leb_add_nonneg; [exact Hb|apply nonneg_to_double].
  - apply nonneg_add; [exact Hb|apply nonneg_to_double].
Qed.

(** X4: in every reachable state the box that the next turn selects is a
    lightest box, and the first of them: its weight is at most the weight of
    every box and strictly less than the weight of every earlier box. *)
Theorem turn_selects_lightest_box (g : Game) :
  Reachable g ->
  exists k bk,
    findSmallestBox (boxes g) = Some (Z.of_nat k) /\
    nth_error (boxes g) k = Some bk /\
    (forall j bj, nth_error (boxes g) j = Some bj ->
                  (weight_ bk <=? weight_ bj)%float = true) /\
    (forall j bj, (j < k)%nat -> nth_error (boxes g) j = Some bj ->
                  (weight_ bk <? weight_ bj)%float = true).
Proof.
  intros Hinv%Reachable_invariant.
  pose proof (Game_invariant_weights g Hinv) as Hw.
  destruct (boxes_of_invariant g Hinv) as [Hne Hlen].
  destruct (findSmallestBox_spec (boxes g) Hne Hlen)
    as (k & Hrun & _ & bk & Hbk & Hno & Hearlier).
  exists k, bk. split; [exact Hrun|]. split; [exact Hbk|].
  pose proof (nth_error_Forall _ _ _ _ Hw Hbk) as Hnk. cbv beta in Hnk.
  split.
  - intros j bj Hbj.
    pose proof (nth_error_Forall _ _ _ _ Hw Hbj) as Hnj. cbv beta in Hnj.
    apply ltb_false_leb; [exact Hnj|exact Hnk|]. exact (Hno j bj Hbj).
  - intros j bj Hj Hbj.
    pose proof (nth_error_Forall _ _ _ _ Hw Hbj) as Hnj. cbv beta in Hnj.
    apply leb_false_ltb; [exact Hnj|exact Hnk|]. exact (Hearlier j bj Hj Hbj).
Qed.

(** ** Scores of a box *)

Lemma nonneg_not_nan (x : float) :
  nonneg x = true -> PrimFloat.is_nan x = false.
Proof.
  unfold nonneg, PrimFloat.is_nan. rewrite FloatAxioms.eqb_spec.
  destruct (Prim2SF x) as [s|s| |s m e]; cbn [SFnonneg]; intros H;
    try discriminate.
  - reflexivity.
  - destruct s; reflexivity.
  - unfold SFeqb, SFcompare. rewrite Z.compare_refl.
    change (Pos.compare_cont Eq m m) with (Pos.compare m m).
    rewrite Pos.compare_refl. destruct s; reflexivity.
Qed.

(** X9: on every box but a green box that has absorbed nothing, whenever
    [calcScore] is defined its result is not a NaN and not below zero. *)
Theorem calcScore_never_negative (b : Box) (score : float) :
  (kind b = GreenBox -> absorbed_weights b <> []) ->
  calcScore b = Some score ->
  nonneg score = true /\ (0 <=? score)%float = true.
Proof.
  intros Hne H. apply calcScore_nonneg in H; [|exact Hne]. split; [exact H|].
  unfold nonneg in H. rewrite FloatAxioms.leb_spec.
  change (Prim2SF 0) with (S754_zero false).
  destruct (Prim2SF score) as [s|s| |s m e]; cbn in H; try discriminate;
    try reflexivity; apply negb_true_iff in H; subst s; reflexivity.
Qed.

(** X10: what [calcScore] does on a box that has absorbed nothing.  A blue
    box has no score exactly then (the end iterator is dereferenced); a
    green box always has a score, and it is a NaN exactly then. *)
Theorem calcScore_empty_history (b : Box) :
  (kind b = BlueBox ->
     (calcScore b = None <-> absorbed_weights b = [])) /\
  (kind b = GreenBox ->
     exists score, calcScore b = Some score /\
                   (PrimFloat.is_nan score = true <-> absorbed_weights b = [])).
Proof.
  split; intros Hk.
  - split.
    + intros Hnone.
      destruct (absorbed_weights b) as [|w ws] eqn:E; [reflexivity|].
      destruct (calcScore_nonempty b) as [s Hs]; [rewrite E; discriminate|].
      congruence.
    + intros E. unfold calcScore. rewrite Hk, E. reflexivity.
  - destruct (absorbed_weights b) as [|w ws] eqn:E.
    + exists PrimFloat.nan. unfold calcScore. rewrite Hk, E.
      split; [reflexivity|]. split; reflexivity.
    + destruct (calcScore_nonempty b) as [score Hscore];
        [rewrite E; discriminate|].
      exists score. split; [exact Hscore|].
      assert (Hn : nonneg score = true).
      { apply (calcScore_nonneg b); [|exact Hscore].
        intros _. rewrite E. discriminate. }
      apply nonneg_not_nan in Hn. rewrite Hn. split; discriminate.
Qed.

(** X12: the score of a blue box is the pairing of its least and its
    greatest absorbed weight, whatever else the history holds. *)
Theorem BlueBox_score_of_extremes (b : Box) (m M : Z) :
  kind b = BlueBox ->
  In m (absorbed_weights b) -> In M (absorbed_weights b) ->
  (forall x, In x (absorbed_weights b) -> m <= x <= M) ->
  calcScore b = Some (pairing m M).
Proof.
  intros Hk Hm HM Hall. unfold calcScore. rewrite Hk.
  apply BlueBox_calcScore_extremes; assumption.
Qed.

Lemma BlueBox_calcScore_Permutation h1 h2 :
  Permutation h1 h2 -> BlueBox_calcScore h1 = BlueBox_calcScore h2.
Proof.
  intros Hp. destruct h1 as [|w ws].
  - apply Permutation_nil in Hp. subst. reflexivity.
  - destruct (min_element_fold ws w) as [Hin1 Hle1].
    destruct (max_element_fold ws w) as [Hin2 Hle2]. cbv zeta in *.
    set (m := fold_left _ ws w) in Hin1, Hle1.
    set (M := fold_left _ ws w) in Hin2, Hle2.
    assert (Hall : forall x, In x (w :: ws) -> m <= x <= M)
      by (intros x Hx; split; auto).
    rewrite (BlueBox_calcScore_extremes (w :: ws) m M Hin1 Hin2 Hall).
    symmetry. apply BlueBox_calcScore_extremes.
    + eapply Permutation_in; eassumption.
    + eapply Permutation_in; eassumption.
    + intros x Hx. apply Hall.
      eapply Permutation_in; [apply Permutation_sym; exact Hp|exact Hx].
Qed.

(** X13: two blue boxes that absorbed the same weights in different
    orders have the same score. *)
Theorem BlueBox_score_order_independent (b1 b2 : Box) :
  kind b1 = BlueBox -> kind b2 = BlueBox ->
  Permutation (absorbed_weights b1) (absorbed_weights b2) ->
  calcScore b1 = calcScore b2.
Proof.
  intros H1 H2 Hp. unfold calcScore. rewrite H1, H2.
  apply BlueBox_calcScore_Permutation, Hp.
Qed.

(** X14: when the least and the greatest absorbed weight add up to less
    than 2^32, the score of a blue box is Cantor's pairing of the two,
    computed on the operands promoted to [double]. *)
Theorem BlueBox_score_is_cantor_pairing (b : Box) (m M : Z) :
  kind b = BlueBox ->
  In m (absorbed_weights b) -> In M (absorbed_weights b) ->
  (forall x, In x (absorbed_weights b) -> m <= x <= M) ->
  0 <= m -> m + M < UINT32_MODULUS ->
  calcScore b = Some (cantor_pairing m M).
Proof.
  intros Hk Hm HM Hall Hm0 Hsum. unfold calcScore. rewrite Hk.
  apply BlueBox_calcScore_cantor; assumption.
Qed.

(** X11: the score of a green box with three or more absorbed weights is
    the score of its last three, however many weights came before. *)
Theorem GreenBox_score_of_last_three (b : Box) (earlier : list Z) (w1 w2 w3 : Z) :
  kind b = GreenBox ->
  absorbed_weights b = earlier ++ [w1; w2; w3] ->
  calcScore b = GreenBox_calcScore [w1; w2; w3].
Proof.
  intros Hk Hh. unfold calcScore. rewrite Hk, Hh.
  unfold GreenBox_calcScore.
  rewrite (recent_weights_of_last (earlier ++ [w1; w2; w3])).
  unfold last_weights. rewrite length_app. cbn [length].
  rewrite Nat.min_l by lia.
  replace (length earlier + 3 - 3)%nat with (length earlier) by lia.
  rewrite skipn_app, skipn_all, Nat.sub_diag. reflexivity.
Qed.

(** ** The loop of the game *)

(** X17: the turn counter of [play] never wraps: after [n] turns it holds
    [n], or 65535 once [n] is beyond. *)
Theorem count_saturates (input_weights : list Z) :
  exists g, play_loop input_weights new_Game = Some g /\
            count g = Z.min (Z.of_nat (length input_weights)) 65535.
Proof.
  destruct (play_loop_total input_weights new_Game new_Game_invariant) as (g & Hrun & _).
  exists g. split; [exact Hrun|].
  destruct (play_loop_count_at input_weights g Hrun) as [-> _].
  apply count_at_eq.
Qed.

(** X18: the first 65536 turns alternate, player A first: the turn that
    follows [n < 65536] turns adds its score to A when [n] is even and to B
    when [n] is odd, and leaves the other player as it was. *)
Theorem turns_alternate_below_65536 (input_weights : list Z) (weight : Z) (g g' : Game) :
  Z.of_nat (length input_weights) < 65536 ->
  play_loop input_weights new_Game = Some g ->
  play_iter g weight = Some g' ->
  exists score,
    nonneg score = true /\
    match alternating_player (length input_weights) with
    | PlayerA => score_ (player_A g') = (score_ (player_A g) + score)%float /\
                 player_B g' = player_B g
    | PlayerB => score_ (player_B g') = (score_ (player_B g) + score)%float /\
                 player_A g' = player_A g
    end.
Proof.
  intros Hlen Hrun Hstep.
  destruct (play_loop_total input_weights new_Game new_Game_invariant) as (g0 & Hrun0 & Hinv).
  assert (g0 = g) by congruence. subst g0.
  destruct (play_iter_frame g weight g' Hinv Hstep)
    as (k & box & score & _ & _ & Hscore & _ & _ & Hp).
  exists score.
  split; [eapply calcScore_nonneg; [intros _; apply boxAbsorb_nonempty|exact Hscore]|].
  destruct (play_loop_count_at input_weights g Hrun) as [_ Hplayer].
  rewrite Hplayer, player_of_turn_alternates in Hp by exact Hlen.
  exact Hp.
Qed.

Lemma Forall_store_box (P : Box -> Prop) bs : forall k b',
  Forall P bs -> P b' -> Forall P (store_box bs k b').
Proof.
  induction bs as [|hd tl IH]; intros [|k] b' H Hb; cbn; auto;
    inversion H; subst; constructor; auto.
Qed.

Lemma Reachable_uint32 g :
  Reachable g ->
  Forall (fun b => Forall is_uint32 (absorbed_weights b)) (boxes g).
Proof.
  induction 1 as [|g g' weight Hg IH Hw Hstep].
  - repeat constructor.
  - destruct (play_iter_frame g weight g' (Reachable_invariant g Hg) Hstep)
      as (k & box & _ & _ & Hbox & _ & -> & _).
    apply Forall_store_box; [exact IH|].
    cbn [boxAbsorb absorbed_weights]. apply Forall_app. split.
    + exact (nth_error_Forall _ _ _ _ IH Hbox).
    + constructor; [exact Hw|constructor].
Qed.

(** X16: no rounding error builds up in the first box, which starts at
    0.0: in every reachable state its weight is exactly the sum of its
    history, as long as that sum is below 2^53. *)
Theorem first_box_weight_is_exact (g : Game) (b : Box) :
  Reachable g -> nth_error (boxes g) 0 = Some b ->
  fold_right Z.add 0 (absorbed_weights b) < 2 ^ 53 ->
  weight_ b = to_double (fold_right Z.add 0 (absorbed_weights b)).
Proof.
  intros Hg Hb Hsum.
  pose proof (nth_error_Forall _ _ _ _ (Reachable_uint32 g Hg) Hb) as Hu.
  cbv beta in Hu.
  destruct (Reachable_invariant g Hg) as [Hboxes _].
  destruct (Forall2_nth_error _ _ _ _ _ Hboxes Hb) as (b0 & Hb0 & _ & Hw).
  injection Hb0 as <-. unfold weight_invariant in Hw. rewrite Hw.
  change (weight_ (makeGreenBox 0)) with (to_double 0).
  rewrite accumulate_exact; [reflexivity|lia| |exact Hsum].
  eapply Forall_impl; [|exact Hu]. unfold is_uint32. intros; lia.
Qed.

Lemma play_loop_scores input_weights :
  forall g g', Game_invariant g -> scores_nonneg g ->
    play_loop input_weights g = Some g' ->
    scores_nonneg g' /\
    (score_ (player_A g) <=? score_ (player_A g'))%float = true /\
    (score_ (player_B g) <=? score_ (player_B g'))%float = true.
Proof.
  induction input_weights as [|w ws IH]; intros g g' Hinv Hs; cbn [play_loop].
  - intros [= <-]. destruct Hs as [HA HB].
    repeat split; auto using leb_refl_nonneg.
  - destruct (play_iter g w) as [g1|] eqn:H1; [|discriminate]. cbn [bind].
    intros Hrun.
    destruct (play_iter_scores g w g1 Hinv Hs H1) as (Hs1 & HA1 & HB1).
    destruct (IH g1 g' (play_iter_invariant _ _ _ Hinv H1) Hs1 Hrun)
      as (Hs' & HA' & HB').
    split; [exact Hs'|]. split; eapply leb_trans; eassumption.
Qed.

Lemma new_Game_scores_nonneg : scores_nonneg new_Game.
Proof. split; reflexivity. Qed.

(** X19: [play] succeeds on every input, and neither returned score is a
    NaN or below zero. *)
Theorem play_scores_never_negative (input_weights : list Z) :
  exists score_A score_B,
    play input_weights = Some (score_A, score_B) /\
    nonneg score_A = true /\ nonneg score_B = true.
Proof.
  destruct (play_loop_total input_weights new_Game new_Game_invariant) as (g & Hrun & _).
  destruct (play_loop_scores input_weights new_Game g new_Game_invariant
              new_Game_scores_nonneg Hrun) as ([HA HB] & _).
  exists (score_ (player_A g)), (score_ (player_B g)).
  split; [|split; assumption].
  unfold play, play_in. rewrite Hrun. reflexivity.
Qed.

(** X20: more input never lowers a final score: the scores of a game are
    at most the scores of the game on the same weights followed by more. *)
Theorem play_prefix_scores (weights more : list Z) :
  exists a1 b1 a2 b2,
    play weights = Some (a1, b1) /\
    play (weights ++ more) = Some (a2, b2) /\
    (a1 <=? a2)%float = true /\ (b1 <=? b2)%float = true.
Proof.
  destruct (play_loop_total weights new_Game new_Game_invariant) as (g1 & Hrun1 & Hinv1).
  destruct (play_loop_total more g1 Hinv1) as (g2 & Hrun2 & _).
  destruct (play_loop_scores weights new_Game g1 new_Game_invariant
              new_Game_scores_nonneg Hrun1) as (Hs1 & _).
  destruct (play_loop_scores more g1 g2 Hinv1 Hs1 Hrun2) as (_ & HA & HB).
  exists (score_ (player_A g1)), (score_ (player_B g1)),
         (score_ (player_A g2)), (score_ (player_B g2)).
  split; [unfold play, play_in; rewrite Hrun1; reflexivity|].
  split; [|split; assumption].
  unfold play, play_in. rewrite play_loop_app, Hrun1. cbn [bind].
  rewrite Hrun2. reflexivity.
Qed.

Lemma SFmul_self_zero_sign x s :
  SF64mul x x = S754_zero s -> s = false.
Proof.
  destruct x as [sx|sx| |sx m e]; cbn [SF64mul SFmul]; try discriminate.
  - intros [= <-]. apply xorb_nilpotent.
  - intros H%binary_round_aux_zero_sign. rewrite H. apply xorb_nilpotent.
Qed.

Lemma zero_plus_square (x : float) : (0 + x * x)%float = (x * x)%float.
Proof.
  apply Prim2SF_inj. rewrite add_spec, mul_spec.
  change (Prim2SF 0) with (S754_zero false).
  apply SFadd_zero_l. intros s. apply SFmul_self_zero_sign.
Qed.

Lemma GreenBox_calcScore_single w :
  GreenBox_calcScore [w] = Some (to_double w * to_double w)%float.
Proof.
  unfold GreenBox_calcScore. cbn [recent_weights_of length Z.of_nat
    Pos.of_succ_nat Z.ltb Z.compare Pos.compare Pos.compare_cont bind
    accumulate fold_left].
  change (to_double 1) with 1%float.
  rewrite zero_plus_to_double, div_one. reflexivity.
Qed.

(** X21: a game of a single weight gives player A the square of that
    weight and player B nothing. *)
Theorem play_single_weight (weight : Z) :
  play [weight] = Some (to_double weight * to_double weight, 0)%float.
Proof.
  unfold play, play_in. cbn [play_loop].
  unfold play_iter. change (player_of_count (count new_Game)) with PlayerA.
  unfold takeTurn. change (findSmallestBox (boxes new_Game)) with (Some 0).
  cbn [bind Z.to_nat nth_error boxes new_Game initial_boxes].
  unfold calcScore. cbn [kind boxAbsorb makeGreenBox absorbed_weights app].
  rewrite GreenBox_calcScore_single. cbn [bind fst snd player_A player_B getScore score_ new_Player].
  rewrite zero_plus_square. reflexivity.
Qed.

Lemma binary_round_no_shift p e :
  e <= fexp prec emax (Zpos (digits2_pos p) + e) ->
  binary_round prec emax false p e
  = binary_round_aux prec emax false (Zpos p) e loc_Exact.
Proof.
  intros He. unfold binary_round, shl_align.
  destruct (fexp prec emax (Zpos (digits2_pos p) + e) - e) eqn:Hd;
    try reflexivity. lia.
Qed.

Lemma SFinteger_eq n :
  Zpos n < 2 ^ 53 ->
  exists mz, Zpos mz = Zpos n * 2 ^ (53 - Zpos (digits2_pos n)) /\
             bounded prec emax mz (Zpos (digits2_pos n) - 53) = true /\
             Zpos (digits2_pos mz) = 53 /\
             SFinteger n = S754_finite false mz (Zpos (digits2_pos n) - 53).
Proof.
  intros Hn. destruct (SFinteger_bounded n Hn) as (mz & Hmz & Hdig & Hb).
  cbv zeta in *. exists mz. repeat split; try assumption.
  unfold SFinteger. rewrite <- Hmz. reflexivity.
Qed.

(** The product of two integers in binary64 is exact below 2^53. *)
Lemma SFmul_SFinteger a b :
  Zpos a * Zpos b < 2 ^ 53 ->
  SF64mul (SFinteger a) (SFinteger b) = SFinteger (a * b).
Proof.
  intros Hab.
  assert (Ha : Zpos a < 2 ^ 53) by nia.
  assert (Hb : Zpos b < 2 ^ 53) by nia.
  destruct (SFinteger_eq a Ha) as (ma & Hma & _ & Hda53 & ->).
  destruct (SFinteger_eq b Hb) as (mb & Hmb & _ & Hdb53 & ->).
  pose proof (digits2_pos_le_53 a Ha) as Hda.
  pose proof (digits2_pos_le_53 b Hb) as Hdb.
  pose proof (digits2_pos_bounds a) as [Halo _].
  pose proof (digits2_pos_bounds b) as [Hblo _].
  set (da := Zpos (digits2_pos a)) in *.
  set (db := Zpos (digits2_pos b)) in *.
  assert (0 < da /\ 0 < db) as [Hda0 Hdb0] by (unfold da, db; lia).
  assert (Hsum : da + db <= 54).
  { destruct (Z.le_gt_cases (da + db) 54) as [H|H]; [exact H|].
    assert (2 ^ 53 <= 2 ^ ((da - 1) + (db - 1))) by (apply Z.pow_le_mono_r; lia).
    rewrite Z.pow_add_r in H0 by lia.
    assert (0 < 2 ^ (da - 1)) by (apply Z.pow_pos_nonneg; lia).
    assert (0 < 2 ^ (db - 1)) by (apply Z.pow_pos_nonneg; lia).
    nia. }
  unfold SF64mul, SFmul. cbn [xorb].
  assert (Hp : Zpos (ma * mb) = Zpos (a * b) * 2 ^ (- (da - 53 + (db - 53)))).
  { rewrite !Pos2Z.inj_mul, Hma, Hmb.
    replace (- (da - 53 + (db - 53))) with ((53 - da) + (53 - db)) by lia.
    rewrite Z.pow_add_r by lia. ring. }
  rewrite <- binary_round_no_shift.
  - apply binary_round_scaled_at; [rewrite Pos2Z.inj_mul; exact Hab|lia|exact Hp].
  - rewrite fexp_eq.
    change (Zpos (digits2_pos (ma * mb))) with (Zdigits2 (Zpos (ma * mb))).
    pose proof (Zdigits2_bounds (Zpos (ma * mb)) (Pos2Z.is_pos _)) as [_ Hhi].
    pose proof (digits2_pos_bounds ma) as [Hmalo _].
    pose proof (digits2_pos_bounds mb) as [Hmblo _].
    rewrite Hda53 in Hmalo. rewrite Hdb53 in Hmblo.
    assert (104 < Zdigits2 (Zpos (ma * mb))).
    { destruct (Z.le_gt_cases (Zdigits2 (Zpos (ma * mb))) 104) as [H|H]; [|lia].
      assert (2 ^ Zdigits2 (Zpos (ma * mb)) <= 2 ^ 104) by (apply Z.pow_le_mono_r; lia).
      rewrite Pos2Z.inj_mul in Hhi.
      change (2 ^ 104) with (2 ^ (53 - 1) * 2 ^ (53 - 1)) in H0.
      assert (2 ^ (53 - 1) * 2 ^ (53 - 1) <= Zpos ma * Zpos mb)
        by (apply Z.mul_le_mono_nonneg; try assumption; discriminate).
      exfalso. apply (Z.lt_irrefl (Zpos ma * Zpos mb)).
      eapply Z.lt_le_trans; [exact Hhi|].
      eapply Z.le_trans; [exact H0|exact H1]. }
    lia.
Qed.

Lemma to_double_mul a b :
  0 <= a < 2 ^ 53 -> 0 <= b < 2 ^ 53 -> a * b < 2 ^ 53 ->
  (to_double a * to_double b)%float = to_double (a * b).
Proof.
  intros Ha Hb Hab. apply Prim2SF_inj. rewrite mul_spec.
  destruct a as [|a|a]; [| |lia]; destruct b as [|b|b]; try lia.
  - reflexivity.
  - rewrite to_double_SFinteger by lia. reflexivity.
  - rewrite to_double_SFinteger by lia. reflexivity.
  - change (Zpos a * Zpos b) with (Zpos (a * b)).
    rewrite !to_double_SFinteger by (rewrite ?Pos2Z.inj_mul; lia).
    apply SFmul_SFinteger. exact Hab.
Qed.

Lemma SFinteger_double h :
  Zpos h~0 < 2 ^ 53 ->
  exists mz, SFinteger h = S754_finite false mz (Zpos (digits2_pos h) - 53) /\
             SFinteger h~0 = S754_finite false mz (Zpos (digits2_pos h) - 52) /\
             bounded prec emax mz (Zpos (digits2_pos h) - 53) = true.
Proof.
  intros Hh. assert (Hh' : Zpos h < 2 ^ 53) by lia.
  destruct (SFinteger_eq h Hh') as (mz & Hmz & Hb & _ & Heq).
  exists mz. split; [exact Heq|]. split; [|exact Hb].
  unfold SFinteger. cbn [digits2_pos]. rewrite Pos2Z.inj_succ.
  pose proof (digits2_pos_le_53 h Hh') as Hd.
  set (d := Zpos (digits2_pos h)) in *.
  assert (0 < d) by (unfold d; lia).
  replace (Zpos h~0 * 2 ^ (53 - Z.succ d)) with (Zpos mz).
  - rewrite Pos2Z.id. f_equal. lia.
  - rewrite Hmz. change (Zpos h~0) with (2 * Zpos h).
    replace (53 - d) with (Z.succ (53 - Z.succ d)) by lia.
    rewrite Z.pow_succ_r by (pose proof (digits2_pos_le_53 (h~0) Hh) as H1;
      cbn [digits2_pos] in H1; rewrite Pos2Z.inj_succ in H1; fold d in H1; lia).
    ring.
Qed.

(** The quotient of a canonical 53-digit mantissa by the mantissa of 2.0. *)
Lemma SFdiv_core_by_two m e :
  Zpos (digits2_pos m) = 53 ->
  SFdiv_core_binary prec emax (Zpos m) e 4503599627370496 (-51)
  = (Zpos m~0, Z.min (Z.max (e - 2) (-1074)) (e + 51) + 0, loc_Exact)
  \/ e - 2 < -1074.
Proof.
  intros Hd. destruct (Z.le_gt_cases (-1074) (e - 2)) as [He|He]; [left|right; lia].
  unfold SFdiv_core_binary. rewrite fexp_eq. cbn [Zdigits2]. rewrite Hd.
  change (Zpos (digits2_pos 4503599627370496)) with 53.
  replace (Z.min (Z.max (53 + e - (53 + -51) - 53) (-1074)) (e - -51))
    with (e - 2) by lia.
  replace (e - -51 - (e - 2)) with 53 by lia.
  rewrite Z.shiftl_mul_pow2 by lia.
  replace (Zpos m * 2 ^ 53) with (Zpos m~0 * 4503599627370496) by lia.
  rewrite div_eucl_exact by lia.
  f_equal. f_equal. lia.
Qed.

Lemma SFdiv_two_SFinteger h :
  Zpos h~0 < 2 ^ 53 ->
  SF64div (SFinteger h~0) (S754_finite false 4503599627370496 (-51))
  = SFinteger h.
Proof.
  intros Hh. destruct (SFinteger_double h Hh) as (mz & -> & -> & Hb).
  assert (Hh' : Zpos h < 2 ^ 53) by lia.
  destruct (SFinteger_bounded h Hh') as (mz' & Hmz' & Hdig & _). cbv zeta in *.
  pose proof (digits2_pos_le_53 h Hh') as Hd.
  set (d := Zpos (digits2_pos h)) in *.
  assert (0 < d) by (unfold d; lia).
  assert (Hdz : Zpos (digits2_pos mz) = 53).
  { pose proof Hb as [Hc _]%andb_true_iff. apply canonical_iff in Hc. lia. }
  unfold SF64div, SFdiv. cbn [xorb].
  destruct (SFdiv_core_by_two mz (d - 52) Hdz) as [->|Hbad]; [|lia].
  replace (Z.min (Z.max (d - 52 - 2) (-1074)) (d - 52 + 51) + 0)
    with ((d - 53) - 1) by lia.
  apply binary_round_aux_doubled; [exact Hb|lia].
Qed.

Lemma to_double_half c :
  0 <= c -> 2 * c < 2 ^ 53 ->
  (to_double (2 * c) / 2)%float = to_double c.
Proof.
  intros Hc Hlt. apply Prim2SF_inj. rewrite div_spec.
  change (Prim2SF 2) with (S754_finite false 4503599627370496 (-51)).
  destruct c as [|c|c]; [reflexivity| |lia].
  change (2 * Zpos c) with (Zpos c~0).
  rewrite !to_double_SFinteger by lia.
  apply SFdiv_two_SFinteger. exact Hlt.
Qed.

Lemma pairing_exact m M :
  0 <= m -> 0 <= M -> (m + M) * (m + M + 1) < 2 ^ 53 ->
  pairing m M = to_double (cantor m M).
Proof.
  intros Hm HM Hlt. unfold pairing, cantor, wrap32, UINT32_MODULUS.
  set (s := m + M) in *.
  assert (Hs : 0 <= s) by (unfold s; lia).
  assert (Hs1 : s + 1 < 2 ^ 53) by nia.
  assert (Hs32 : s < 4294967296).
  { destruct (Z.lt_ge_cases s 4294967296) as [H|H]; [exact H|].
    assert (4294967296 * 4294967296 <= s * (s + 1)) by nia.
    change (2 ^ 53) with 9007199254740992 in Hlt. lia. }
  rewrite Z.mod_small by lia.
  change 1%float with (to_double 1).
  rewrite to_double_add by lia.
  rewrite to_double_mul by lia.
  destruct (Z.Even_or_Odd s) as [[c Hc]|[c Hc]].
  - assert (Hq : s * (s + 1) = 2 * (c * (s + 1))) by (rewrite Hc; ring).
    assert (Hdiv : s * (s + 1) / 2 = c * (s + 1))
      by (rewrite Hq, (Z.mul_comm 2), Z.div_mul; lia).
    rewrite Hdiv, Hq, to_double_half by nia.
    rewrite to_double_add by nia. reflexivity.
  - assert (Hq : s * (s + 1) = 2 * (s * (c + 1))) by (rewrite Hc; ring).
    assert (Hdiv : s * (s + 1) / 2 = s * (c + 1))
      by (rewrite Hq, (Z.mul_comm 2), Z.div_mul; lia).
    rewrite Hdiv, Hq, to_double_half by nia.
    rewrite to_double_add by nia. reflexivity.
Qed.

(** X15: for a least weight [m] and a greatest weight [M] with
    [(m + M) * (m + M + 1) < 2^53], the score of a blue box is exactly the
    integer [(m + M) * (m + M + 1) / 2 + M]: no operation of [pairing]
    rounds. *)
Theorem BlueBox_score_exact (b : Box) (m M : Z) :
  kind b = BlueBox ->
  In m (absorbed_weights b) -> In M (absorbed_weights b) ->
  (forall x, In x (absorbed_weights b) -> m <= x <= M) ->
  0 <= m -> (m + M) * (m + M + 1) < 2 ^ 53 ->
  calcScore b = Some (to_double (cantor m M)).
Proof.
  intros Hk Hm HM Hall Hm0 Hlt. unfold calcScore. rewrite Hk.
  rewrite (BlueBox_calcScore_extremes _ m M Hm HM Hall).
  rewrite pairing_exact; [reflexivity|exact Hm0| |exact Hlt].
  specialize (Hall m Hm). lia.
Qed.

Lemma in_bounds_3_1_2 :
  forall x, In x [3; 1; 2] -> 1 <= x <= 3.
Proof. intros x [<-|[<-|[<-|[]]]]; lia. Qed.

Lemma BlueBox_score_exact_witness :
  calcScore (mkBox BlueBox 6.5 [3; 1; 2]) = Some (to_double (cantor 1 3)).
Proof.
  apply (BlueBox_score_exact (mkBox BlueBox 6.5 [3; 1; 2]) 1 3).
  - reflexivity.
  - cbn. auto.
  - cbn. auto.
  - exact in_bounds_3_1_2.
  - lia.
  - vm_compute. reflexivity.
Defined.

Lemma findSmallestBox_in_bounds_witness :
  exists idx, findSmallestBox boxes_65537 = Some idx /\
              0 <= idx < 65536 /\
              idx < Z.of_nat (length boxes_65537).
Proof.
  destruct (findSmallestBox_in_bounds boxes_65537) as (idx & Hrun & Hidx & Hlen).
  exists idx. split; [exact Hrun|]. split; [exact Hidx|].
  apply Hlen. discriminate.
Defined.

Lemma Box_lt_strict_order_witness :
  Box_lt (makeGreenBox 1) (makeGreenBox 0) = false.
Proof.
  apply (proj1 (proj2 Box_lt_strict_order) (makeGreenBox 0) (makeGreenBox 1)).
  reflexivity.
Defined.

Lemma findSmallestBox_reads_weights_witness :
  findSmallestBox [mkBox GreenBox 2 [2]; mkBox BlueBox 1 [1]]
  = findSmallestBox [makeBlueBox 2; makeGreenBox 1].
Proof.
  apply findSmallestBox_reads_weights. reflexivity.
Defined.

Lemma turn_changes_one_box_witness :
  exists k box,
    findSmallestBox (boxes new_Game) = Some (Z.of_nat k) /\
    nth_error (boxes new_Game) k = Some box /\
    nth_error (boxes game_after_5) k = Some (boxAbsorb 5 box) /\
    (forall j, j <> k ->
       nth_error (boxes game_after_5) j = nth_error (boxes new_Game) j) /\
    length (boxes game_after_5) = length (boxes new_Game) /\
    (player_A game_after_5 = player_A new_Game \/
     player_B game_after_5 = player_B new_Game).
Proof.
  apply (turn_changes_one_box new_Game game_after_5 5).
  - exact Reachable_new.
  - vm_compute. reflexivity.
Defined.

Lemma boxes_keep_their_kinds_witness :
  map kind (boxes game_after_5) = [GreenBox; GreenBox; BlueBox; BlueBox].
Proof. apply boxes_keep_their_kinds. exact Reachable_game_after_5. Defined.

Lemma boxAbsorb_not_lighter_witness :
  (weight_ (makeBlueBox 0.5) <=? weight_ (boxAbsorb 7 (makeBlueBox 0.5)))%float = true /\
  nonneg (weight_ (boxAbsorb 7 (makeBlueBox 0.5))) = true.
Proof. apply boxAbsorb_not_lighter. vm_compute. reflexivity. Defined.

Lemma turn_selects_lightest_box_witness :
  exists k bk,
    findSmallestBox (boxes game_after_5) = Some (Z.of_nat k) /\
    nth_error (boxes game_after_5) k = Some bk /\
    (forall j bj, nth_error (boxes game_after_5) j = Some bj ->
                  (weight_ bk <=? weight_ bj)%float = true) /\
    (forall j bj, (j < k)%nat -> nth_error (boxes game_after_5) j = Some bj ->
                  (weight_ bk <? weight_ bj)%float = true).
Proof. apply turn_selects_lightest_box. exact Reachable_game_after_5. Defined.

Lemma calcScore_never_negative_witness :
  nonneg 25 = true /\ (0 <=? 25)%float = true.
Proof.
  apply (calcScore_never_negative (boxAbsorb 5 (makeGreenBox 0)) 25).
  - intros _. discriminate.
  - vm_compute. reflexivity.
Defined.

Lemma calcScore_empty_history_witness :
  (calcScore (makeBlueBox 0.5) = None <->
   absorbed_weights (makeBlueBox 0.5) = []) /\
  (exists score,
     calcScore (makeGreenBox 0.5) = Some score /\
     (PrimFloat.is_nan score = true <->
      absorbed_weights (makeGreenBox 0.5) = [])).
Proof.
  split.
  - apply (proj1 (calcScore_empty_history (makeBlueBox 0.5))). reflexivity.
  - apply (proj2 (calcScore_empty_history (makeGreenBox 0.5))). reflexivity.
Defined.

Lemma BlueBox_score_of_extremes_witness :
  calcScore (mkBox BlueBox 6.5 [3; 1; 2]) = Some (pairing 1 3).
Proof.
  apply (BlueBox_score_of_extremes (mkBox BlueBox 6.5 [3; 1; 2]) 1 3).
  - reflexivity.
  - cbn. auto.
  - cbn. auto.
  - exact in_bounds_3_1_2.
Defined.

Lemma BlueBox_score_order_independent_witness :
  calcScore (mkBox BlueBox 3.5 [1; 2]) = calcScore (mkBox BlueBox 3.5 [2; 1]).
Proof.
  apply BlueBox_score_order_independent; [reflexivity|reflexivity|].
  apply perm_swap.
Defined.

Lemma BlueBox_score_is_cantor_pairing_witness :
  calcScore (mkBox BlueBox 6.5 [3; 1; 2]) = Some (cantor_pairing 1 3).
Proof.
  apply (BlueBox_score_is_cantor_pairing (mkBox BlueBox 6.5 [3; 1; 2]) 1 3).
  - reflexivity.
  - cbn. auto.
  - cbn. auto.
  - exact in_bounds_3_1_2.
  - lia.
  - vm_compute. reflexivity.
Defined.

Lemma GreenBox_score_of_last_three_witness :
  calcScore (mkBox GreenBox 15 [1; 2; 3; 4; 5]) = GreenBox_calcScore [3; 4; 5].
Proof.
  apply (GreenBox_score_of_last_three (mkBox GreenBox 15 [1; 2; 3; 4; 5]) [1; 2]);
    reflexivity.
Defined.

Lemma turns_alternate_below_65536_witness :
  exists score,
    nonneg score = true /\
    score_ (player_A game_after_5) = (score_ (player_A new_Game) + score)%float /\
    player_B game_after_5 = player_B new_Game.
Proof.
  apply (turns_alternate_below_65536 [] 5 new_Game game_after_5).
  - cbn. lia.
  - reflexivity.
  - vm_compute. reflexivity.
Defined.

Lemma first_box_weight_is_exact_witness :
  weight_ (boxAbsorb 5 (makeGreenBox 0))
  = to_double (fold_right Z.add 0 (absorbed_weights (boxAbsorb 5 (makeGreenBox 0)))).
Proof.
  apply (first_box_weight_is_exact game_after_5).
  - exact Reachable_game_after_5.
  - reflexivity.
  - vm_compute. reflexivity.
Defined.

(** ** Sums between two numbers *)

Lemma canonical_digits m e :
  canonical_mantissa prec emax m e = true ->
  -1074 <= e /\ Zpos (digits2_pos m) <= 53 /\
  (-1074 < e -> Zpos (digits2_pos m) = 53).
Proof. intros H%canonical_iff. lia. Qed.

Lemma pow2_pos z : 0 <= z -> 0 < 2 ^ z.
Proof. intros. apply Z.pow_pos_nonneg; lia. Qed.

(** The order of canonical numbers is the order of their values. *)
Lemma SFltb_value x y :
  valid_binary x = true -> valid_binary y = true ->
  SFfinite_nonneg x = true -> SFfinite_nonneg y = true ->
  SFltb x y = true -> SFvalue x < SFvalue y.
Proof.
  destruct x as [sx|sx| |sx mx ex], y as [sy|sy| |sy my ey];
    cbn [SFfinite_nonneg SpecFloat.valid_binary]; intros Hvx Hvy Hx Hy;
    try discriminate;
    repeat match goal with
    | H : negb ?b = true |- _ => apply negb_true_iff in H; subst b
    end; unfold SFltb, SFcompare; cbn [SFvalue].
  - intros _. apply andb_true_iff in Hvy as [Hc _].
    apply canonical_digits in Hc as (He & _).
    pose proof (pow2_pos (ey + 1074) ltac:(lia)). nia.
  - discriminate.
  - apply andb_true_iff in Hvx as [Hcx _]. apply andb_true_iff in Hvy as [Hcy _].
    apply canonical_digits in Hcx as (Hex & Hdx & _).
    apply canonical_digits in Hcy as (Hey & _ & Hdy).
    pose proof (digits2_pos_bounds mx) as [_ Hxhi].
    pose proof (digits2_pos_bounds my) as [Hylo _].
    change (Pos.compare_cont Eq mx my) with (Pos.compare mx my).
    destruct (Z.compare_spec ex ey) as [Heq|Hlt|Hgt]; try discriminate.
    + subst ey. destruct (Pos.compare_spec mx my); try discriminate. intros _.
      pose proof (pow2_pos (ex + 1074) ltac:(lia)). nia.
    + intros _. rewrite Hdy in Hylo by lia.
      assert (Zpos mx < 2 ^ 53).
      { eapply Z.lt_le_trans; [exact Hxhi|]. apply Z.pow_le_mono_r; lia. }
      replace (ey + 1074) with ((ey - ex - 1) + 1 + (ex + 1074)) by lia.
      rewrite (Z.pow_add_r 2 (ey - ex - 1 + 1) (ex + 1074)),
        (Z.pow_add_r 2 (ey - ex - 1) 1) by lia.
      change (2 ^ 1) with 2.
      pose proof (pow2_pos (ex + 1074) ltac:(lia)).
      pose proof (pow2_pos (ey - ex - 1) ltac:(lia)).
      change (2 ^ (53 - 1)) with 4503599627370496 in Hylo.
      change (2 ^ 53) with 9007199254740992 in H.
      assert (Zpos mx * 2 ^ (ex + 1074) < 9007199254740992 * 2 ^ (ex + 1074)) by nia.
      assert (9007199254740992 * 2 ^ (ex + 1074)
              <= Zpos my * (2 ^ (ey - ex - 1) * 2) * 2 ^ (ex + 1074)); [|nia].
      apply Z.mul_le_mono_nonneg_r; [lia|]. nia.
Qed.

Lemma SFleb_of_value x y :
  valid_binary x = true -> valid_binary y = true ->
  SFfinite_nonneg x = true -> SFfinite_nonneg y = true ->
  SFvalue x <= SFvalue y -> SFleb x y = true.
Proof.
  intros Hvx Hvy Hx Hy Hle.
  destruct (SFleb x y) eqn:E; [reflexivity|].
  assert (Hlt : SFltb y x = true).
  { apply SFleb_false_SFltb_number; try assumption.
    - destruct x; try discriminate.
    - destruct y; try discriminate. }
  apply SFltb_value in Hlt; try assumption. lia.
Qed.

Lemma SFleb_value x y :
  valid_binary x = true -> valid_binary y = true ->
  SFfinite_nonneg x = true -> SFfinite_nonneg y = true ->
  SFleb x y = true -> SFvalue x <= SFvalue y.
Proof.
  intros Hvx Hvy Hx Hy Hle.
  destruct (Z.le_gt_cases (SFvalue x) (SFvalue y)) as [H|H]; [exact H|].
  assert (Hxy : SFleb y x = true) by (apply SFleb_of_value; try assumption; lia).
  (* antisymmetry on values *)
  destruct (SFltb y x) eqn:E.
  - apply SFltb_not_SFleb in E. congruence.
  - assert (SFltb x y = false).
    { destruct (SFltb x y) eqn:E2; [|reflexivity].
      apply SFltb_not_SFleb in E2. congruence. }
    (* both leb, neither ltb: compare Eq both ways: values equal *)
    exfalso.
    destruct x as [sx|sx| |sx mx ex], y as [sy|sy| |sy my ey];
      cbn [SFfinite_nonneg] in Hx, Hy; try discriminate;
      repeat match goal with
      | H : negb ?b = true |- _ => apply negb_true_iff in H; subst b
      end; cbn [SFvalue] in H; try lia.
    + cbn in Hle. discriminate.
    + unfold SFltb, SFleb, SFcompare in *.
      change (Pos.compare_cont Eq mx my) with (Pos.compare mx my) in *.
      change (Pos.compare_cont Eq my mx) with (Pos.compare my mx) in *.
      destruct (Z.compare_spec ex ey); try discriminate.
      subst ey. destruct (Pos.compare_spec mx my); try discriminate.
      subst my. lia.
Qed.

Lemma round_nearest_even_le m l : round_nearest_even m l <= m + 1.
Proof.
  destruct l as [|[]]; cbn [round_nearest_even]; try destruct (Z.even m); lia.
Qed.

(** Rounding keeps the exponent at or above the one it is given. *)
Lemma binary_round_aux_exponent m e l :
  0 < m -> -1074 <= e ->
  binary_round_aux prec emax false m e l = S754_infinity false \/
  exists p e3, binary_round_aux prec emax false m e l = S754_finite false p e3 /\
               e <= e3.
Proof.
  intros Hm He.
  pose proof (shifted_positive m e Hm He) as Hm1.
  unfold binary_round_aux.
  destruct (shr_fexp_spec m e l) as [Hs1 He1]; [lia|].
  destruct (shr_fexp prec emax m e l) as [mrs1 e1]. cbn [fst snd] in Hs1, He1.
  rewrite <- Hs1 in Hm1.
  pose proof (round_nearest_even_ge (shr_m mrs1) (loc_of_shr_record mrs1)) as Hr.
  set (m2 := round_nearest_even (shr_m mrs1) (loc_of_shr_record mrs1)) in *.
  assert (Hm2 : 0 < m2) by lia.
  assert (He1' : e <= e1) by lia.
  pose proof (shifted_positive m2 e1 Hm2 ltac:(lia)) as Hm3.
  destruct (shr_fexp_spec m2 e1 loc_Exact) as [Hs2 He2]; [lia|].
  destruct (shr_fexp prec emax m2 e1 loc_Exact) as [mrs2 e2].
  cbn [fst snd] in Hs2, He2. rewrite <- Hs2 in Hm3.
  destruct (shr_m mrs2) as [|p|p] eqn:Hp; try lia.
  destruct (e2 <=? emax - prec); [|left; reflexivity].
  right. exists p, e2. split; [reflexivity|lia].
Qed.

(** Rounding does not go below a canonical number of at most the value. *)
Lemma binary_round_aux_lower_value mx ex m e l :
  canonical_mantissa prec emax mx ex = true ->
  -1074 <= e -> 0 < m ->
  Zpos mx * 2 ^ (ex + 1074) <= m * 2 ^ (e + 1074) ->
  SFleb (S754_finite false mx ex) (binary_round_aux prec emax false m e l) = true.
Proof.
  intros Hc He Hm Hv.
  destruct (Z.le_gt_cases e ex) as [Hle|Hgt].
  - apply binary_round_aux_lower_bound; [exact Hc|lia|].
    replace (ex + 1074) with ((ex - e) + (e + 1074)) in Hv by lia.
    rewrite (Z.pow_add_r 2 (ex - e) (e + 1074)), Z.mul_assoc in Hv by lia.
    apply Z.mul_le_mono_pos_r in Hv; [exact Hv|apply pow2_pos; lia].
  - destruct (binary_round_aux_exponent m e l Hm He) as [->|(p & e3 & -> & He3)].
    + reflexivity.
    + unfold SFleb, SFcompare.
      destruct (Z.compare_spec ex e3); try reflexivity; lia.
Qed.

Lemma shr_fexp_exact mx n e :
  0 <= n ->
  fexp prec emax (Zdigits2 (Zpos mx * 2 ^ n) + e) = e + n ->
  shr_fexp prec emax (Zpos mx * 2 ^ n) e loc_Exact
  = ({| shr_m := Zpos mx; shr_r := false; shr_s := false |}, e + n).
Proof.
  intros Hn Hf. unfold shr_fexp. rewrite Hf.
  replace (e + n - e) with n by lia.
  assert (Hpos : 0 < Zpos mx * 2 ^ n) by (pose proof (pow2_pos n Hn); nia).
  destruct n as [|q|q]; try lia.
  - change (2 ^ 0) with 1. rewrite Z.mul_1_r, Z.add_0_r. reflexivity.
  - destruct (Zpos mx * 2 ^ Zpos q) as [|r|r] eqn:Hr; try lia.
    cbn [shr shr_record_of_loc]. rewrite <- Hr.
    f_equal. apply iter_shr_1_exact. lia.
Qed.

Lemma shr_fexp_no_shift m e :
  0 < m -> m < 2 ^ 53 -> -1074 <= e ->
  shr_m (fst (shr_fexp prec emax m e loc_Exact)) = m /\
  snd (shr_fexp prec emax m e loc_Exact) = e.
Proof.
  intros Hm Hlt He.
  destruct (shr_fexp_spec m e loc_Exact) as [Hs1 He1]; [lia|].
  pose proof (Zdigits2_bounds m Hm) as [Hlo Hhi].
  assert (Hd : Zdigits2 m <= 53).
  { destruct (Z.le_gt_cases (Zdigits2 m) 53) as [H|H]; [exact H|].
    assert (2 ^ 53 <= 2 ^ (Zdigits2 m - 1)) by (apply Z.pow_le_mono_r; lia). lia. }
  rewrite fexp_eq in Hs1, He1.
  replace (Z.max (Z.max (Zdigits2 m + e - 53) (-1074) - e) 0) with 0 in Hs1, He1 by lia.
  change (2 ^ 0) with 1 in Hs1. rewrite Z.div_1_r in Hs1. split; [exact Hs1|lia].
Qed.

(** Rounding does not go above a canonical number of at least the value. *)
Lemma binary_round_aux_upper_value mx ex m e :
  bounded prec emax mx ex = true ->
  -1074 <= e -> 0 < m ->
  e <= fexp prec emax (Zdigits2 m + e) ->
  m * 2 ^ (e + 1074) <= Zpos mx * 2 ^ (ex + 1074) ->
  SFleb (binary_round_aux prec emax false m e loc_Exact) (S754_finite false mx ex) = true.
Proof.
  unfold bounded. intros [Hc Hex]%andb_true_iff He Hm Hal Hv.
  apply Z.leb_le in Hex. change (emax - prec) with 971 in Hex.
  pose proof Hc as Hcan. apply canonical_digits in Hc as (Hemin & Hdx & Hnorm).
  pose proof (Zdigits2_bounds m Hm) as [Hlo Hhi].
  pose proof (digits2_pos_bounds mx) as [Hxlo Hxhi].
  set (dx := Zpos (digits2_pos mx)) in *.
  set (dm := Zdigits2 m) in *.
  assert (Hdm0 : 0 < dm) by (unfold dm; destruct m; try lia; reflexivity).
  assert (Hd : dm + e <= dx + ex).
  { assert (H1 : 2 ^ (dm - 1) * 2 ^ (e + 1074) <= m * 2 ^ (e + 1074)).
    { apply Z.mul_le_mono_nonneg_r; [apply Z.pow_nonneg; lia|exact Hlo]. }
    assert (H2 : Zpos mx * 2 ^ (ex + 1074) < 2 ^ dx * 2 ^ (ex + 1074)).
    { apply Z.mul_lt_mono_pos_r; [apply pow2_pos; lia|exact Hxhi]. }
    rewrite <- !Z.pow_add_r in * by lia.
    assert (H3 : 2 ^ (dm - 1 + (e + 1074)) < 2 ^ (dx + (ex + 1074))) by lia.
    apply Z.pow_lt_mono_r_iff in H3; lia. }
  rewrite fexp_eq in Hal. fold dm in Hal.
  set (e1 := Z.max (dm + e - 53) (-1074)) in *.
  assert (He1 : e1 <= ex).
  { apply canonical_iff in Hcan. fold dx in Hcan. lia. }
  set (n1 := e1 - e).
  assert (Hn1 : 0 <= n1) by (unfold n1; lia).
  assert (Hmx53 : Zpos mx < 2 ^ 53).
  { eapply Z.lt_le_trans; [exact Hxhi|]. apply Z.pow_le_mono_r; lia. }
  destruct (shr_fexp_spec m e loc_Exact) as [Hs1 Hse1]; [lia|].
  rewrite fexp_eq in Hs1, Hse1. fold dm in Hs1, Hse1. fold e1 in Hs1, Hse1.
  replace (Z.max (e1 - e) 0) with n1 in Hs1, Hse1 by (unfold n1; lia).
  replace (e + n1) with e1 in Hse1 by (unfold n1; lia).
  pose proof (shifted_positive m e Hm He) as Hm1pos.
  rewrite fexp_eq in Hm1pos. fold dm in Hm1pos. fold e1 in Hm1pos.
  replace (Z.max (e1 - e) 0) with n1 in Hm1pos by (unfold n1; lia).
  assert (Hm1_53 : m / 2 ^ n1 < 2 ^ 53).
  { apply Z.div_lt_upper_bound; [apply pow2_pos; lia|].
    rewrite <- Z.pow_add_r by lia.
    eapply Z.lt_le_trans; [exact Hhi|]. apply Z.pow_le_mono_r; unfold n1; lia. }
  assert (Hfin : forall m2 e2 p,
             m2 = Zpos p -> -1074 <= e2 -> e2 <= ex ->
             (e2 = ex -> m2 <= Zpos mx) ->
             SFleb (if e2 <=? emax - prec then S754_finite false p e2
                    else S754_infinity false) (S754_finite false mx ex) = true).
  { intros m2 e2 p Hp He2 He2x Hmm. change (emax - prec) with 971.
    destruct (Z.leb_spec e2 971); [|lia].
    unfold SFleb, SFcompare.
    change (Pos.compare_cont Eq p mx) with (Pos.compare p mx).
    destruct (Z.compare_spec e2 ex); try reflexivity; [|lia].
    destruct (Pos.compare_spec p mx); try reflexivity. lia. }
  assert (Htail : forall m2, 0 < m2 -> (m2 <= Zpos mx \/ (e1 < ex /\ m2 <= 2 ^ 53)) ->
            SFleb (let '(mrs2, e2) := shr_fexp prec emax m2 e1 loc_Exact in
                   match shr_m mrs2 with
                   | 0 => S754_zero false
                   | Zpos p => if e2 <=? emax - prec then S754_finite false p e2
                               else S754_infinity false
                   | Zneg _ => S754_nan
                   end) (S754_finite false mx ex) = true).
  { intros m2 Hm2 Hcase.
    destruct (Z.lt_ge_cases m2 (2 ^ 53)) as [Hlt|Hge].
    - destruct (shr_fexp_no_shift m2 e1 Hm2 Hlt ltac:(unfold e1; lia)) as [Hs2 He2].
      destruct (shr_fexp prec emax m2 e1 loc_Exact) as [mrs2 e2].
      cbn [fst snd] in Hs2, He2. rewrite Hs2. subst e2.
      destruct m2 as [|p|p]; try lia.
      apply (Hfin (Zpos p)); [reflexivity|unfold e1; lia|exact He1|].
      intros E. destruct Hcase as [H|[H _]]; lia.
    - destruct Hcase as [H|[Hlt H]]; [lia|].
      assert (m2 = 2 ^ 53) by lia. subst m2.
      assert (Hnorm' : 2 ^ 52 <= Zpos mx).
      { rewrite Hnorm in Hxlo by (unfold e1 in Hlt; lia). exact Hxlo. }
      destruct (shr_fexp_spec (2 ^ 53) e1 loc_Exact) as [Hs2 He2]; [lia|].
      rewrite fexp_eq in Hs2, He2. change (Zdigits2 (2 ^ 53)) with 54 in Hs2, He2.
      replace (Z.max (Z.max (54 + e1 - 53) (-1074) - e1) 0) with 1 in Hs2, He2
        by (unfold e1; lia).
      change (2 ^ 53 / 2 ^ 1) with (2 ^ 52) in Hs2.
      destruct (shr_fexp prec emax (2 ^ 53) e1 loc_Exact) as [mrs2 e2].
      cbn [fst snd] in Hs2, He2. rewrite Hs2.
      change (2 ^ 52) with (Zpos (2 ^ 52)%positive).
      apply (Hfin (2 ^ 52)); [reflexivity|unfold e1 in *; lia|lia|].
      intros _. exact Hnorm'. }
  destruct (Z.eq_dec m (Zpos mx * 2 ^ n1)) as [Heq|Hne].
  - destruct (Z.eq_dec e1 ex) as [E|E].
    + (* the value is the bound itself *)
      unfold binary_round_aux. rewrite Heq.
      rewrite (shr_fexp_exact mx n1 e Hn1)
        by (rewrite <- Heq, fexp_eq; fold dm; fold e1; unfold n1; lia).
      cbn [shr_m loc_of_shr_record round_nearest_even].
      replace (e + n1) with ex by (unfold n1; lia).
      rewrite shr_fexp_canonical by exact Hcan. cbn [shr_m].
      change (emax - prec) with 971. destruct (Z.leb_spec ex 971); [|lia].
      apply SFcompare_refl_finite.
    + unfold binary_round_aux. rewrite Heq.
      rewrite (shr_fexp_exact mx n1 e Hn1)
        by (rewrite <- Heq, fexp_eq; fold dm; fold e1; unfold n1; lia).
      cbn [shr_m loc_of_shr_record round_nearest_even].
      replace (e + n1) with e1 by (unfold n1; lia).
      apply Htail; lia.
  - unfold binary_round_aux.
    destruct (shr_fexp prec emax m e loc_Exact) as [mrs1 e1'].
    cbn [fst snd] in Hs1, Hse1. subst e1'.
    pose proof (round_nearest_even_ge (shr_m mrs1) (loc_of_shr_record mrs1)) as Hr.
    pose proof (round_nearest_even_le (shr_m mrs1) (loc_of_shr_record mrs1)) as Hr'.

    set (m2 := round_nearest_even (shr_m mrs1) (loc_of_shr_record mrs1)) in *.
    rewrite Hs1 in Hr, Hr'.
    apply Htail; [lia|].
    destruct (Z.eq_dec e1 ex) as [E|E]; [left|right; split; lia].
    assert (Hle : m <= Zpos mx * 2 ^ n1).
    { replace (ex + 1074) with (n1 + (e + 1074)) in Hv by (unfold n1; lia).
      rewrite (Z.pow_add_r 2 n1 (e + 1074)), Z.mul_assoc in Hv by lia.
      apply Z.mul_le_mono_pos_r in Hv; [exact Hv|apply pow2_pos; lia]. }
    assert (m / 2 ^ n1 < Zpos mx); [|lia].
    apply Z.div_lt_upper_bound; [apply pow2_pos; lia|]. lia.
Qed.

Lemma Zdigits2_shift (p : positive) k :
  0 <= k -> Zdigits2 (Zpos p * 2 ^ k) = Zpos (digits2_pos p) + k.
Proof.
  intros Hk. pose proof (digits2_pos_bounds p) as [Hlo Hhi].
  pose proof (pow2_pos k Hk).
  apply Zdigits2_unique; [|lia]. split.
  - replace (Zpos (digits2_pos p) + k - 1) with (Zpos (digits2_pos p) - 1 + k) by lia.
    rewrite Z.pow_add_r by lia. nia.
  - rewrite Z.pow_add_r by lia. nia.
Qed.

(** The sum of two positive numbers is the rounding of their exact sum,
    given at an exponent that rounding does not go below. *)
Lemma SFadd_finite_shape ma ea mw ew :
  canonical_mantissa prec emax ma ea = true ->
  canonical_mantissa prec emax mw ew = true ->
  exists mz e0,
    SF64add (S754_finite false ma ea) (S754_finite false mw ew)
    = binary_round_aux prec emax false (Zpos mz) e0 loc_Exact /\
    -1074 <= e0 /\
    e0 <= fexp prec emax (Zdigits2 (Zpos mz) + e0) /\
    Zpos mz * 2 ^ (e0 + 1074)
    = Zpos ma * 2 ^ (ea + 1074) + Zpos mw * 2 ^ (ew + 1074).
Proof.
  intros Hca Hcw.
  pose proof (canonical_emin _ _ Hca). pose proof (canonical_emin _ _ Hcw).
  unfold SF64add, SFadd. cbn [cond_Zopp].
  set (ez := Z.min ea ew).
  destruct (shl_align_spec ma ea ez) as [_ HX].
  destruct (shl_align_spec mw ew ez) as [_ HY].
  set (X := fst (shl_align ma ea ez)) in *.
  set (Y := fst (shl_align mw ew ez)) in *.
  change (Zpos X + Zpos Y) with (Zpos (X + Y)).
  cbn [binary_normalize]. unfold binary_round.
  destruct (shl_align_spec (X + Y) ez
              (fexp prec emax (Zpos (digits2_pos (X + Y)) + ez))) as [He0 Hmz].
  destruct (shl_align (X + Y) ez _) as [mz e0]. cbn [fst snd] in He0, Hmz.
  rewrite <- He0 in Hmz.
  assert (He0' : -1074 <= e0 <= ez) by (rewrite fexp_eq in He0; lia).
  exists mz, e0. split; [reflexivity|]. split; [lia|]. split.
  - rewrite Hmz, Zdigits2_shift by lia.
    replace (Zpos (digits2_pos (X + Y)) + (ez - e0) + e0)
      with (Zpos (digits2_pos (X + Y)) + ez) by lia.
    lia.
  - rewrite Hmz, Pos2Z.inj_add, HX, HY.
    replace (Z.min ea ez) with ez by lia.
    replace (Z.min ew ez) with ez by lia.
    replace (ea + 1074) with ((ea - ez) + (ez - e0) + (e0 + 1074)) by lia.
    replace (ew + 1074) with ((ew - ez) + (ez - e0) + (e0 + 1074)) by lia.
    rewrite (Z.pow_add_r 2 (ea - ez + (ez - e0)) (e0 + 1074)),
      (Z.pow_add_r 2 (ew - ez + (ez - e0)) (e0 + 1074)),
      (Z.pow_add_r 2 (ea - ez) (ez - e0)),
      (Z.pow_add_r 2 (ew - ez) (ez - e0)) by lia.
    ring.
Qed.

Lemma SFleb_zero_nonneg s x : SFnonneg x = true -> SFleb (S754_zero s) x = true.
Proof.
  destruct x as [sx|sx| |sx m e]; cbn [SFnonneg]; intros H; try discriminate;
    try (apply negb_true_iff in H; subst sx); reflexivity.
Qed.

Lemma SFvalue_pos m e : -1074 <= e -> 0 < SFvalue (S754_finite false m e).
Proof. intros He. cbn [SFvalue]. pose proof (pow2_pos (e + 1074) ltac:(lia)). nia. Qed.

(** A sum lies between the numbers that its exact value lies between. *)
Lemma SFadd_between a w lo hi :
  valid_binary a = true -> valid_binary w = true ->
  valid_binary lo = true -> valid_binary hi = true ->
  SFfinite_nonneg a = true -> SFfinite_nonneg w = true ->
  SFfinite_nonneg lo = true -> SFfinite_nonneg hi = true ->
  SFvalue lo <= SFvalue a + SFvalue w <= SFvalue hi ->
  SFleb lo (SF64add a w) = true /\ SFleb (SF64add a w) hi = true.
Proof.
  intros Hva Hvw Hvlo Hvhi Ha Hw Hlo Hhi Hv.
  assert (Hsame : forall r, valid_binary r = true -> SFfinite_nonneg r = true ->
            SFvalue r = SFvalue a + SFvalue w ->
            SFleb lo r = true /\ SFleb r hi = true).
  { intros r Hvr Hr Hval. split; apply SFleb_of_value; try assumption; lia. }
  destruct a as [sa|sa| |sa ma ea]; try discriminate;
    destruct w as [sw|sw| |sw mw ew]; try discriminate.
  - apply (Hsame (SF64add (S754_zero sa) (S754_zero sw))).
    + destruct sa, sw; reflexivity.
    + destruct sa, sw; reflexivity.
    + destruct sa, sw; reflexivity.
  - apply (Hsame (S754_finite sw mw ew)); [exact Hvw|exact Hw|reflexivity].
  - apply (Hsame (S754_finite sa ma ea)); [exact Hva|exact Ha|].
    cbn [SFvalue]. lia.
  - cbn [SFfinite_nonneg] in Ha, Hw.
    apply negb_true_iff in Ha, Hw. subst sa sw.
    cbn [SpecFloat.valid_binary] in Hva, Hvw.
    apply andb_true_iff in Hva as [Hca _]. apply andb_true_iff in Hvw as [Hcw _].
    destruct (SFadd_finite_shape ma ea mw ew Hca Hcw)
      as (mz & e0 & -> & He0 & Hal & Hval).
    cbn [SFvalue] in Hv. rewrite <- Hval in Hv. split.
    + destruct lo as [s|s| |s mlo elo]; try discriminate.
      * apply SFleb_zero_nonneg, binary_round_aux_nonneg. lia.
      * cbn [SFfinite_nonneg] in Hlo. apply negb_true_iff in Hlo. subst s.
        cbn [SpecFloat.valid_binary] in Hvlo.
        apply andb_true_iff in Hvlo as [Hclo _].
        apply binary_round_aux_lower_value; [exact Hclo|exact He0|lia|].
        cbn [SFvalue] in Hv. lia.
    + destruct hi as [s|s| |s mhi ehi]; try discriminate.
      * cbn [SFvalue] in Hv. pose proof (pow2_pos (e0 + 1074) ltac:(lia)). nia.
      * cbn [SFfinite_nonneg] in Hhi. apply negb_true_iff in Hhi. subst s.
        apply binary_round_aux_upper_value;
          [exact Hvhi|exact He0|lia|exact Hal|].
        cbn [SFvalue] in Hv. lia.
Qed.

(** What lies between two finite numbers not below zero is one. *)
Lemma SFfinite_nonneg_between lo a hi :
  SFfinite_nonneg lo = true -> SFfinite_nonneg hi = true ->
  SFleb lo a = true -> SFleb a hi = true -> SFfinite_nonneg a = true.
Proof.
  destruct lo as [s1|s1| |s1 m1 e1]; try discriminate;
    destruct hi as [s3|s3| |s3 m3 e3]; try discriminate;
    destruct a as [s2|[]| |[] m2 e2]; cbn [SFfinite_nonneg negb];
    intros H1 H3; try (apply negb_true_iff in H1; subst s1);
    try (apply negb_true_iff in H3; subst s3);
    cbn; try reflexivity; try discriminate; intros; discriminate.
Qed.

(** A promoted integer below 2^53 holds the integer. *)
Lemma to_double_value n :
  0 <= n < 2 ^ 53 ->
  SFfinite_nonneg (Prim2SF (to_double n)) = true /\
  SFvalue (Prim2SF (to_double n)) = n * 2 ^ 1074.
Proof.
  intros [Hn Hlt]. destruct n as [|p|p]; [split; reflexivity| |lia].
  rewrite to_double_SFinteger by exact Hlt.
  split; [reflexivity|].
  pose proof (digits2_pos_le_53 p Hlt) as Hd.
  unfold SFinteger. cbn [SFvalue].
  set (d := Zpos (digits2_pos p)) in *.
  assert (0 < d) by (unfold d; lia).
  pose proof (pow2_pos (53 - d) ltac:(lia)).
  rewrite Z2Pos.id by nia.
  rewrite <- Z.mul_assoc, <- Z.pow_add_r by lia.
  f_equal. f_equal. lia.
Qed.

Section Between.
Local Open Scope float_scope.

(** A weight between an integer and its successor stays between the
    integers moved by the absorbed weight. *)
Lemma add_between (a : float) (S w : Z) :
  (0 <= S)%Z -> (0 <= w)%Z -> (S + w + 1 < 2 ^ 53)%Z ->
  (to_double S <=? a) = true -> (a <=? to_double (S + 1)) = true ->
  (to_double (S + w) <=? a + to_double w) = true /\
  (a + to_double w <=? to_double (S + w + 1)) = true.
Proof.
  intros HS Hw Hsum. rewrite !FloatAxioms.leb_spec, add_spec. intros Hlo Hhi.
  destruct (to_double_value S ltac:(lia)) as [HfS HvS].
  destruct (to_double_value (S + 1) ltac:(lia)) as [HfS1 HvS1].
  destruct (to_double_value w ltac:(lia)) as [Hfw Hvw].
  destruct (to_double_value (S + w) ltac:(lia)) as [Hflo Hvlo].
  destruct (to_double_value (S + w + 1) ltac:(lia)) as [Hfhi Hvhi].
  pose proof (SFfinite_nonneg_between _ _ _ HfS HfS1 Hlo Hhi) as Hfa.
  apply SFleb_value in Hlo; try apply Prim2SF_valid; try assumption.
  apply SFleb_value in Hhi; try apply Prim2SF_valid; try assumption.
  apply SFadd_between; try apply Prim2SF_valid; try assumption.
  rewrite Hvlo, Hvhi, Hvw. rewrite HvS in Hlo. rewrite HvS1 in Hhi. lia.
Qed.

Lemma accumulate_between weights :
  forall (a : float) (S : Z),
    (0 <= S)%Z -> Forall is_uint32 weights ->
    (S + fold_right Z.add 0%Z weights + 1 < 2 ^ 53)%Z ->
    (to_double S <=? a) = true -> (a <=? to_double (S + 1)) = true ->
    (to_double (S + fold_right Z.add 0%Z weights) <=? accumulate weights a) = true /\
    (accumulate weights a <=? to_double (S + fold_right Z.add 0%Z weights + 1)) = true.
Proof.
  induction weights as [|w ws IH]; intros a S HS Hall Hsum Hlo Hhi;
    cbn [fold_right] in *.
  - rewrite Z.add_0_r. split; assumption.
  - inversion Hall as [|? ? Hw Hws]; subst.
    assert (0 <= fold_right Z.add 0 ws)%Z.
    { clear -Hws. induction Hws as [|x l Hx _ IHl]; cbn; [lia|].
      unfold is_uint32 in Hx. lia. }
    unfold is_uint32 in Hw.
    change (accumulate (w :: ws) a) with (accumulate ws (a + to_double w)).
    destruct (add_between a S w HS ltac:(lia) ltac:(lia) Hlo Hhi) as [Hlo' Hhi'].
    replace (S + (w + fold_right Z.add 0 ws))%Z
      with (S + w + fold_right Z.add 0 ws)%Z by lia.
    apply IH; try assumption; lia.
Qed.

End Between.

(** ** The weight of a box and the sum of its history *)

Lemma initial_boxes_below_one :
  Forall (fun b => (to_double 0 <=? weight_ b)%float = true /\
                   (weight_ b <=? to_double (0 + 1))%float = true)
         initial_boxes.
Proof. repeat constructor. Qed.

(** C6 (as amended): a box that starts at a non-negative integer weight
    and absorbs weights of [uint32_t] holds the absorbed sequence as its
    history and, as long as the initial weight plus the absorbed weights
    stays below 2^53, exactly the initial weight plus their sum as its
    weight; in a game this holds in every reachable state for the first
    box, which starts at 0.0; and every box of a game, whose initial
    weight is below 1, weighs in every reachable state at least the sum of
    its history and at most that sum plus one, as long as the latter is
    below 2^53. *)
Theorem weight_is_initial_plus_absorbed :
  (forall (k : BoxKind) (initial_weight : Z) (weights : list Z),
      0 <= initial_weight -> Forall is_uint32 weights ->
      initial_weight + fold_right Z.add 0 weights < 2 ^ 53 ->
      let b := absorb_all weights (mkBox k (to_double initial_weight) []) in
      absorbed_weights b = weights /\
      weight_ b = to_double (initial_weight + fold_right Z.add 0 weights)) /\
  (forall g b, Reachable g -> nth_error (boxes g) 0 = Some b ->
      fold_right Z.add 0 (absorbed_weights b) < 2 ^ 53 ->
      Forall is_uint32 (absorbed_weights b) /\
      weight_ b = to_double (0 + fold_right Z.add 0 (absorbed_weights b))) /\
  (forall g i b, Reachable g -> nth_error (boxes g) i = Some b ->
      fold_right Z.add 0 (absorbed_weights b) + 1 < 2 ^ 53 ->
      (to_double (fold_right Z.add 0%Z (absorbed_weights b)) <=? weight_ b)%float
      = true /\
      (weight_ b <=? to_double (fold_right Z.add 0%Z (absorbed_weights b) + 1))%float
      = true).
Proof.
  split; [|split].
  - intros k initial_weight weights Hinit Hu Hsum b.
    destruct (absorb_all_spec weights (mkBox k (to_double initial_weight) []))
      as (Hh & Hw & _).
    fold b in Hh, Hw. cbn in Hh, Hw. split; [exact Hh|].
    rewrite Hw. apply accumulate_exact; [exact Hinit| |exact Hsum].
    eapply Forall_impl; [|exact Hu]. unfold is_uint32. intros; lia.
  - intros g b Hg Hb Hsum.
    pose proof (nth_error_Forall _ _ _ _ (Reachable_uint32 g Hg) Hb) as Hu.
    cbv beta in Hu. split; [exact Hu|].
    destruct (Reachable_invariant g Hg) as [Hboxes _].
    destruct (Forall2_nth_error _ _ _ _ _ Hboxes Hb) as (b0 & Hb0 & _ & Hw).
    injection Hb0 as <-. unfold weight_invariant in Hw. rewrite Hw.
    change (weight_ (makeGreenBox 0)) with (to_double 0).
    apply accumulate_exact; [lia| |exact Hsum].
    eapply Forall_impl; [|exact Hu]. unfold is_uint32. intros; lia.
  - intros g i b Hg Hb Hsum.
    pose proof (nth_error_Forall _ _ _ _ (Reachable_uint32 g Hg) Hb) as Hu.
    cbv beta in Hu.
    destruct (Reachable_invariant g Hg) as [Hboxes _].
    destruct (Forall2_nth_error _ _ _ _ _ Hboxes Hb) as (b0 & Hb0 & _ & Hw).
    pose proof (nth_error_Forall _ _ _ _ initial_boxes_below_one Hb0) as [Hlo Hhi].
    unfold weight_invariant in Hw. rewrite Hw.
    destruct (accumulate_between (absorbed_weights b) (weight_ b0) 0
                ltac:(lia) Hu ltac:(lia) Hlo Hhi) as [H1 H2].
    rewrite Z.add_0_l in H1, H2. split; assumption.
Qed.

Lemma weight_is_initial_plus_absorbed_witness :
  absorbed_weights (absorb_all [5; 8] (mkBox BlueBox (to_double 2) [])) = [5; 8] /\
  weight_ (absorb_all [5; 8] (mkBox BlueBox (to_double 2) []))
  = to_double (2 + fold_right Z.add 0 [5; 8]).
Proof.
  apply (proj1 weight_is_initial_plus_absorbed BlueBox 2 [5; 8]).
  - lia.
  - repeat constructor; unfold UINT32_MODULUS; lia.
  - vm_compute. reflexivity.
Defined.

(** C6 (as stated) fails where an addition of [double] rounds.  A box that
    starts at 2^53 and absorbs 1 twice still weighs 2^53, not 2^53 + 2.
    The second box of a game, which starts at 0.1, weighs after absorbing 1
    a number whose distance to 1 (an exact difference) is not the initial
    weight. *)
Lemma weight_rounds_away_from_sum :
  (absorbed_weights (absorb_all [1; 1] (makeGreenBox 9007199254740992)) = [1; 1] /\
   weight_ (absorb_all [1; 1] (makeGreenBox 9007199254740992))
   = 9007199254740992%float /\
   (9007199254740992 + to_double (1 + 1))%float = 9007199254740994%float /\
   (9007199254740992 =? 9007199254740994)%float = false) /\
  (weight_ (boxAbsorb 1 second_box) - to_double 1 =? weight_ second_box)%float
  = false.
Proof. repeat split; vm_compute; reflexivity. Qed.
